(** * Hangman: the player store and the guessing loop of [Hangman.py]

    A shallow embedding of [class Player] (the JSON-backed store) and of
    [Game.play_game] (the round loop), with the properties of the
    specification stated and proved over them.

    Conventions of the embedding.
    - A Python [str] is a list of Unicode code points; a code point is an [N].
    - A Python [int] is a [Z].
    - A Python [dict] with string keys is a [gmap]; the file [player.json] is
      modelled by the dictionary [json.load] returns from it ([None] when the
      file does not exist), and [json.dump] followed by [json.load] is the
      identity on such dictionaries.
    - [input()] reads the next element of a list of lines; when the list is
      exhausted it raises [EOFError].
    - [print] has no effect on the state and is left out; the index into the
      seven-element [stage] list of [hangman_stage] is kept, since it can
      raise [IndexError].
    - Failures of the file system and a [player.json] that is not the dump of
      a dictionary of statistics are outside the model. *)

From Stdlib Require Import Strings.String Strings.Ascii.
From stdpp Require Import base numbers option list gmap.

Open Scope Z_scope.

(** ** Python strings *)

Abbreviation char := N (only parsing).
Abbreviation str := (list N) (only parsing).

(** A literal of the source, as the list of its code points (the literals of
    the source are ASCII, where bytes and code points agree). *)
Definition lit (s : string) : str :=
  N_of_ascii <$> list_ascii_of_string s.

Definition underscore : str := lit "_".

(** [str.isalpha] and the white space of [str.strip] are tables of the
    Python runtime over all of Unicode.  The development is parametric in
    them; on the ASCII range they are the following. *)
Definition ascii_isalpha (c : char) : bool :=
  ((65 <=? c) && (c <=? 90) || (97 <=? c) && (c <=? 122))%N.

Definition ascii_isspace (c : char) : bool :=
  ((9 <=? c) && (c <=? 13) || (28 <=? c) && (c <=? 32))%N.

Class Unicode := {
  isalpha : char → bool;
  isspace : char → bool;
  isalpha_ascii : ∀ c, (c < 128)%N → isalpha c = ascii_isalpha c;
  isspace_ascii : ∀ c, (c < 128)%N → isspace c = ascii_isspace c
}.

(** The classification that knows no letter and no space beyond ASCII. *)
Definition ascii_unicode : Unicode := {|
  isalpha := ascii_isalpha;
  isspace := ascii_isspace;
  isalpha_ascii := λ _ _, eq_refl;
  isspace_ascii := λ _ _, eq_refl
|}.

Section Strings.
Context {U : Unicode}.

(** [s.isalpha()]: every character is alphabetic and there is at least one. *)
Definition str_isalpha (s : str) : bool :=
  match s with
  | [] => false
  | _ => forallb isalpha s
  end.

Fixpoint lstrip (s : str) : str :=
  match s with
  | [] => []
  | c :: s' => if isspace c then lstrip s' else s
  end.

Definition rstrip (s : str) : str := reverse (lstrip (reverse s)).

(** [s.strip()] *)
Definition strip (s : str) : str := rstrip (lstrip s).
End Strings.

(** [s.startswith(p)] *)
Fixpoint startswith (s p : str) : bool :=
  match p, s with
  | [], _ => true
  | _ :: _, [] => false
  | c :: p', d :: s' => bool_decide (c = d) && startswith s' p'
  end.

(** [needle in hay] on strings: [needle] is a substring of [hay]. *)
Fixpoint str_in (needle hay : str) : bool :=
  startswith hay needle ||
  match hay with
  | [] => false
  | _ :: hay' => str_in needle hay'
  end.

(** [x in l] on a list of strings. *)
Definition list_in (x : str) (l : list str) : bool := bool_decide (x ∈ l).

(** ** class Player *)

Record Player := mkPlayer {
  player_name : str;
  score : Z;
  rounds : Z
}.

(** [{'Score': s, 'Rounds': r}] *)
Definition stats (s r : Z) : gmap str Z :=
  <[lit "Rounds" := r]> (<[lit "Score" := s]> ∅).

(** The file [player.json]: absent, or holding a dictionary from names to
    statistics. *)
Abbreviation file := (option (gmap str (gmap str Z))) (only parsing).

Definition load_players (f : file) : gmap str (gmap str Z) :=
  match f with
  | Some players => players
  | None => ∅
  end.

Definition create_player (name : str) (f : file) : Player * file :=
  let p := mkPlayer name 0 0 in
  let players := load_players f in
  let players := <[name := stats (score p) (rounds p)]> players in
  (p, Some players).

Definition player_exists (name : str) (f : file) : bool :=
  bool_decide (is_Some (load_players f !! name)).

Definition clear_player (f : file) : file := Some ∅.

Definition update_player (self : Player) (f : file) : file :=
  let players := load_players f in
  Some (<[player_name self := stats (score self) (rounds self)]> players).

(** ** class Game *)

Definition words : list str := lit <$> [
  "apple"; "banana"; "orange"; "grape"; "pear"; "peach"; "cherry";
  "lemon"; "lime"; "mango"; "book"; "pen"; "paper"; "notebook"; "pencil";
  "eraser"; "ruler"; "desk"; "chair"; "lamp"; "dog"; "cat"; "bird"; "fish";
  "horse"; "cow"; "sheep"; "goat"; "pig"; "rabbit"; "run"; "jump"; "swim";
  "fly"; "write"; "read"; "draw"; "sing"; "dance"; "play"; "happy"; "sad";
  "angry"; "tired"; "excited"; "scared"; "brave"; "funny"; "kind"; "smart";
  "house"; "school"; "office"; "shop"; "park"; "garden"; "street"; "city";
  "village"; "country"; "car"; "bike"; "bus"; "train"; "plane"; "boat";
  "truck"; "scooter"; "taxi"; "subway"; "red"; "blue"; "green"; "yellow";
  "orange"; "purple"; "black"; "white"; "pink"; "brown"; "day"; "night";
  "morning"; "evening"; "week"; "month"; "year"; "hour"; "minute"; "second";
  "food"; "water"; "milk"; "bread"; "cheese"; "meat"; "rice"; "soup";
  "fruit"; "vegetable"; "light"; "dark"; "hot"; "cold"; "warm"; "cool";
  "strong"; "weak"; "big"; "small"
]%string.

(** [random.choice(words)]: [rnd] is the draw of the random generator, which
    indexes the list below its length. *)
Definition get_random_word (rnd : nat) : str :=
  nth (rnd mod length words)%nat words [].

(** [all(letter in guessed_letters for letter in word)] *)
Definition guessed_word (word : str) (guessed_letters : list str) : bool :=
  forallb (λ letter, list_in [letter] guessed_letters) word.

(** [print(stage[attempt])] on the list of seven pictures: whether the index
    is one Python accepts (negative indices count from the end). *)
Definition hangman_stage (attempt : Z) : bool :=
  bool_decide (-7 ≤ attempt < 7).

(** The local variables of [play_game]. *)
Record round := mkRound {
  guessed_letters : list str;
  wrong_letters : list str;
  attempt : Z
}.

(** What the loop shares with the rest of the program: the [Player] object
    the game holds a reference to, and the file. *)
Record world := mkWorld {
  player : Player;
  disk : file
}.

Inductive exn := EOFError | IndexError.

(** [Return won word] is the tuple [(won, word)]. *)
Inductive result :=
  | Return (won : bool) (word : option str)
  | Raise (e : exn).

(** How one pass through the loop body ends: back at the loop head, or out of
    the function.  The locals as they are at the exit are kept for
    inspection. *)
Inductive flow :=
  | Continue (rs : round) (σ : world)
  | Exit (r : result) (rs : round) (σ : world).

(** [guessed_letters = ['_'] * len(word)], [wrong_letters = []],
    [attempt = 0] *)
Definition init_round (word : str) : round :=
  mkRound (replicate (length word) underscore) [] 0.

(** How the assignments [guessed_letters[i] = guess] of the reveal loop end:
    all done, or [IndexError] at an index beyond the end of the list.  Both
    carry the list as it is then. *)
Inductive assigned :=
  | Assigned (gl : list str)
  | OutOfRange (gl : list str).

(** [for i, l in enumerate(word): if l == guess: guessed_letters[i] = guess],
    with [i] the running index. *)
Fixpoint reveal (i : nat) (word guess : str) (gl : list str) : assigned :=
  match word with
  | [] => Assigned gl
  | l :: word' =>
      if bool_decide ([l] = guess) then
        if bool_decide (i < length gl)%nat
        then reveal (S i) word' guess (<[i := guess]> gl)
        else OutOfRange gl
      else reveal (S i) word' guess gl
  end.

Definition add_score (n : Z) (σ : world) : world :=
  let p := player σ in
  mkWorld (mkPlayer (player_name p) (score p + n) (rounds p)) (disk σ).

Definition add_round (σ : world) : world :=
  let p := player σ in
  mkWorld (mkPlayer (player_name p) (score p) (rounds p + 1)) (disk σ).

(** [self.player.update_player()] *)
Definition flush (σ : world) : world :=
  mkWorld (player σ) (update_player (player σ) (disk σ)).

(** The two tests at the head of the loop: [Some] when the function leaves
    there, [None] when it goes on to read a guess. *)
Definition loop_head (word : str) (rs : round) (σ : world)
  : option (result * round * world) :=
  if guessed_word word (guessed_letters rs) then
    Some (Return true None, rs, flush (add_round σ))
  else if bool_decide (attempt rs = 7) then
    if hangman_stage (attempt rs - 1)
    then Some (Return false (Some word), rs, flush σ)
    else Some (Raise IndexError, rs, σ)
  else None.

Section Game.
Context {U : Unicode}.

(** The loop body from the line after [input(...).strip()] on. *)
Definition loop_body (word : str) (rs : round) (σ : world) (guess : str)
  : flow :=
  if list_in guess (wrong_letters rs) then Continue rs σ
  else if negb (length guess =? 1)%nat || negb (str_isalpha guess)
  then Continue rs σ
  else if str_in guess word then
    match reveal 0 word guess (guessed_letters rs) with
    | Assigned gl =>
        Continue (mkRound gl (wrong_letters rs) (attempt rs))
                 (add_score 10 σ)
    | OutOfRange gl =>
        Exit (Raise IndexError)
             (mkRound gl (wrong_letters rs) (attempt rs)) σ
    end
  else
    let wl := wrong_letters rs ++ [guess] in
    let rs1 := mkRound (guessed_letters rs) wl (attempt rs) in
    if hangman_stage (attempt rs)
    then Continue (mkRound (guessed_letters rs) wl (attempt rs + 1)) σ
    else Exit (Raise IndexError) rs1 σ.

(** [while True: ...] fed with the lines [input()] will return.  The result
    carries the locals at the exit and the lines not read. *)
Fixpoint play_loop (word : str) (rs : round) (σ : world)
    (lines : list str) : result * round * world * list str :=
  match loop_head word rs σ with
  | Some out => (out, lines)
  | None =>
      match lines with
      | [] => (Raise EOFError, rs, σ, [])
      | line :: rest =>
          match loop_body word rs σ (strip line) with
          | Continue rs' σ' => play_loop word rs' σ' rest
          | Exit r rs' σ' => (r, rs', σ', rest)
          end
      end
  end.

Definition play_game (rnd : nat) (σ : world) (lines : list str)
  : result * round * world * list str :=
  let word := get_random_word rnd in
  play_loop word (init_round word) σ lines.
End Game.

(** ** The user interface *)

(** [str.lower] is a table of the Python runtime as well; on ASCII strings it
    maps the capitals to the small letters and keeps the rest. *)
Definition ascii_lower (c : char) : char :=
  if ((65 <=? c) && (c <=? 90))%N then (c + 32)%N else c.

Class Casing := {
  lower : str → str;
  lower_ascii :
    ∀ s, Forall (λ c, (c < 128)%N) s → lower s = ascii_lower <$> s
}.

(** The casing that changes ASCII only. *)
Definition ascii_casing : Casing := {|
  lower := fmap ascii_lower;
  lower_ascii := λ _ _, eq_refl
|}.

(** The exceptions of the interface: those of the round, and the two a
    missing word or a missing field would raise. *)
Inductive ui_exn :=
  | Base (e : exn)
  | TypeError
  | KeyError.

(** How a function of the interface ends. *)
Inductive ended :=
  | Returned
  | Raised (e : ui_exn).

(** [create_player_ui]: ask for names until one has at most 15 characters
    and is not in the file; [inl] is an exception, [inr] the player made. *)
Fixpoint create_player_ui (f : file) (lines : list str)
  : (exn + Player) * file * list str :=
  match lines with
  | [] => (inl EOFError, f, [])
  | name :: rest =>
      if bool_decide (15 < length name)%nat then create_player_ui f rest
      else if player_exists name f then create_player_ui f rest
      else (inr (create_player name f).1, (create_player name f).2, rest)
  end.

(** An entry the table of high scores can print: [stats['Score']] and
    [stats['Rounds']] both find their key. *)
Definition has_stats (e : gmap str Z) : Prop :=
  is_Some (e !! lit "Score") ∧ is_Some (e !! lit "Rounds").

(** [show_highscores_ui], printing left out: [None] when it returns,
    [Some KeyError] when an entry lacks one of the two fields. *)
Definition show_highscores_ui (f : file) : option ui_exn :=
  let players := load_players f in
  if bool_decide (players = ∅) then None
  else if bool_decide (map_Forall (λ _ e, has_stats e) players) then None
  else Some KeyError.

Section Interface.
Context {U : Unicode} {C : Casing}.

(** The [while True] of [start_game_ui].  [draws] are the draws of the random
    generator and [k] counts the draws made; [fuel] bounds the number of
    rounds, and [None] says it ran out.  The result carries the world, the
    lines not read and the number of draws made. *)
Fixpoint start_game_loop (fuel : nat) (draws : nat → nat) (k : nat)
    (σ : world) (lines : list str)
  : option (ended * world * list str * nat) :=
  match fuel with
  | O => None
  | S fuel' =>
      match play_game (draws k) σ lines with
      | (Return true _, _, σ', rest) =>
          match rest with
          | [] => Some (Raised (Base EOFError), σ', [], S k)
          | again :: rest' =>
              if bool_decide (lower again = lit "y")
              then start_game_loop fuel' draws (S k) σ' rest'
              else Some (Returned, σ', rest', S k)
          end
      | (Return false (Some _), _, σ', rest) => Some (Returned, σ', rest, S k)
      | (Return false None, _, σ', rest) => Some (Raised TypeError, σ', rest, S k)
      | (Raise e, _, σ', rest) => Some (Raised (Base e), σ', rest, S k)
      end
  end.

(** [start_game_ui]: what is left when it ends is the file. *)
Definition start_game_ui (fuel : nat) (draws : nat → nat) (k : nat)
    (f : file) (lines : list str)
  : option (ended * file * list str * nat) :=
  match create_player_ui f lines with
  | (inl e, f', rest) => Some (Raised (Base e), f', rest, k)
  | (inr p, f', rest) =>
      match start_game_loop fuel draws k (mkWorld p f') rest with
      | Some (how, σ', rest', k') => Some (how, disk σ', rest', k')
      | None => None
      end
  end.

(** [main]: the menu loop, with [fuel] bounding the number of its passes and
    of the rounds played. *)
Fixpoint main (fuel : nat) (draws : nat → nat) (k : nat) (f : file)
    (lines : list str) : option (ended * file * list str) :=
  match fuel with
  | O => None
  | S fuel' =>
      match lines with
      | [] => Some (Raised (Base EOFError), f, [])
      | option :: rest =>
          if bool_decide (option = lit "1") then
            match start_game_ui fuel' draws k f rest with
            | Some (Returned, f', rest', k') => main fuel' draws k' f' rest'
            | Some (Raised e, f', rest', _) => Some (Raised e, f', rest')
            | None => None
            end
          else if bool_decide (option = lit "2") then Some (Returned, f, rest)
          else if bool_decide (option = lit "3") then
            match show_highscores_ui f with
            | None => main fuel' draws k f rest
            | Some e => Some (Raised e, f, rest)
            end
          else if bool_decide (option = lit "c") then
            main fuel' draws k (clear_player f) rest
          else main fuel' draws k f rest
      end
  end.
End Interface.

(** Every entry of the file can be printed. *)
Definition store_ok (f : file) : Prop :=
  map_Forall (λ _ e, has_stats e) (load_players f).

(** ** What the properties are stated with *)

(** The list the reveal loop leaves when every index is in range: cell [i]
    holds the guess where the word has the guessed letter, and is kept
    elsewhere. *)
Definition mask (word guess : str) (gl : list str) : list str :=
  zip_with (λ l old, if bool_decide ([l] = guess) then guess else old) word gl.

(** The file holds the player's current statistics under the player's name. *)
Definition flushed (σ : world) : Prop :=
  load_players (disk σ) !! player_name (player σ)
  = Some (stats (score (player σ)) (rounds (player σ))).

(** Every position of the word shows its letter. *)
Definition all_revealed (word : str) (gl : list str) : Prop :=
  Forall2 (λ l g, g = [l]) word gl.

(** Positions of the word with the same letter show the same cell. *)
Definition cells_agree (word : str) (gl : list str) : Prop :=
  ∀ i j l, word !! i = Some l → word !! j = Some l → gl !! i = gl !! j.

(** The result is the tuple [(True, ...)]. *)
Definition is_won (r : result) : bool :=
  match r with
  | Return true _ => true
  | _ => false
  end.

(** The result is a returned tuple, not an exception. *)
Definition is_return (r : result) : bool :=
  match r with
  | Return _ _ => true
  | Raise _ => false
  end.

(** A capital letter of ASCII. *)
Definition uppercase (c : char) : bool := ((65 <=? c) && (c <=? 90))%N.

(** A lowercase letter of ASCII. *)
Definition lowercase (c : char) : bool := ((97 <=? c) && (c <=? 122))%N.

Section Invariant.
Context {U : Unicode}.

(** A guess the validation lets through: one alphabetic character. *)
Definition valid_guess (guess : str) : Prop :=
  length guess = 1%nat ∧ str_isalpha guess = true.

(** What holds of the locals every time the loop is at its head. *)
Record round_ok (word : str) (rs : round) : Prop := {
  ok_cells :
    Forall2 (λ l g, g = [l] ∨ g = underscore) word (guessed_letters rs);
  ok_wrong :
    ∀ g, g ∈ wrong_letters rs → ∃ c, g = [c] ∧ isalpha c = true ∧ c ∉ word;
  ok_nodup : NoDup (wrong_letters rs);
  ok_attempt : attempt rs = Z.of_nat (length (wrong_letters rs));
  ok_bound : attempt rs ≤ 7
}.

(** The locals the loop can have at its head in a round on [word]: those of
    the start, and those a pass through the body leaves. *)
Inductive reachable (word : str) : round → Prop :=
  | reach_init : reachable word (init_round word)
  | reach_step (rs rs' : round) (σ σ' : world) (guess : str) :
      reachable word rs →
      loop_head word rs σ = None →
      loop_body word rs σ guess = Continue rs' σ' →
      reachable word rs'.

(** A guess that is right: one alphabetic character that occurs in the
    word. *)
Definition correct_guess (word guess : str) : bool :=
  (length guess =? 1)%nat && str_isalpha guess && str_in guess word.

(** How many of the lines read hold, once stripped, a guess that is right. *)
Fixpoint correct_guesses (word : str) (read : list str) : nat :=
  match read with
  | [] => 0%nat
  | line :: read' =>
      ((if correct_guess word (strip line) then 1 else 0)
       + correct_guesses word read')%nat
  end.

(** The invariant with two more facts: equal letters are shown together, and
    a seventh wrong guess never meets a word already guessed. *)
Definition round_inv (word : str) (rs : round) : Prop :=
  round_ok word rs
  ∧ cells_agree word (guessed_letters rs)
  ∧ (attempt rs = 7 → guessed_word word (guessed_letters rs) = false).
End Invariant.

(** ** Example data *)

Definition cat : str := lit "cat".
Definition dog : str := lit "dog".
Definition alice : str := lit "Alice".

(** The world right after [create_player_ui] made the player Alice in an
    empty directory. *)
Definition fresh_world : world :=
  mkWorld (create_player alice None).1 (create_player alice None).2.

Definition apple : str := lit "apple".

(** The locals of a round on ["cat"] after the guess ["c"]. *)
Definition cat_c : round := mkRound [lit "c"; underscore; underscore] [] 0.

(** The locals of a round on ["cat"] with the word revealed and seven wrong
    letters on the board. *)
Definition cat_full : round :=
  mkRound (lit <$> ["c"; "a"; "t"]%string)
          (lit <$> ["x"; "y"; "z"; "q"; "w"; "e"; "r"]%string) 7.

Definition seven_wrong : list str :=
  lit <$> ["x"; "y"; "z"; "q"; "w"; "e"; "r"]%string.

Definition c_a_t : list str := lit <$> ["c"; "a"; "t"]%string.

(** The locals of a round on ["dog"] after the wrong guess ["x"]. *)
Definition dog_x : round :=
  mkRound [underscore; underscore; underscore] [lit "x"] 1.

Definition bob : str := lit "Bob".

(** A name of sixteen characters. *)
Definition long_name : str := lit "Bartholomew Cubb".

(** The world after Alice won her round on ["cat"] with c, a, t. *)
Definition won_world : world := flush (add_round (add_score 30 fresh_world)).

(** The locals at the end of a round on ["dog"] lost with seven wrong
    letters. *)
Definition dog_lost : round :=
  mkRound [underscore; underscore; underscore] seven_wrong 7.


(** The random generator that always draws ["cat"]. *)
Definition always_cat (k : nat) : nat := 21%nat.

(** The lines c, x, a, t: three right guesses and a wrong one. *)
Definition c_x_a_t : list str := lit <$> ["c"; "x"; "a"; "t"]%string.

(** The file after Bob joined Alice and won a round with 30 points. *)
Definition alice_bob_file : file :=
  update_player (mkPlayer bob 30 1) (create_player bob (disk fresh_world)).2.

(** ** Strings and lists *)

Lemma startswith_singleton (c : char) (s : str) :
  startswith s [c] = true ↔ ∃ s', s = c :: s'.
Proof.
  destruct s as [|d s]; simpl.
  - split; [done | by intros [? ?]].
  - replace (startswith s []) with true by (by destruct s).
    rewrite andb_true_r, bool_decide_eq_true. split.
    + intros ->. by eexists.
    + by intros [? [= ->]].
Qed.

Lemma str_in_singleton (c : char) (hay : str) :
  str_in [c] hay = true ↔ c ∈ hay.
Proof.
  induction hay as [|d hay IH].
  - simpl. split; [done | by intros ?%elem_of_nil].
  - cbn [str_in]. rewrite orb_true_iff, startswith_singleton, IH, elem_of_cons.
    split.
    + intros [[? [= ->]] | ?]; auto.
    + intros [-> | ?]; [left; by eexists | by right].
Qed.

Lemma str_in_singleton_false (c : char) (hay : str) :
  str_in [c] hay = false ↔ c ∉ hay.
Proof.
  rewrite <- str_in_singleton. destruct (str_in [c] hay); naive_solver.
Qed.

Lemma guessed_word_spec (word : str) (gl : list str) :
  guessed_word word gl = true ↔ ∀ c, c ∈ word → [c] ∈ gl.
Proof.
  unfold guessed_word, list_in. rewrite forallb_forall. split.
  - intros Hall c Hc%list_elem_of_In. eapply bool_decide_eq_true_1, Hall, Hc.
  - intros Hall c Hc%list_elem_of_In. by apply bool_decide_eq_true_2, Hall.
Qed.

Lemma reveal_in_range (word guess : str) :
  ∀ (pre gl : list str),
    length gl = length word →
    reveal (length pre) word guess (pre ++ gl)
    = Assigned (pre ++ mask word guess gl).
Proof.
  induction word as [|l word IH]; intros pre gl Hlen.
  - destruct gl; [|done]. reflexivity.
  - destruct gl as [|g gl]; [done|]. injection Hlen as Hlen.
    cbn [reveal mask zip_with]. case_bool_decide as Hl.
    + rewrite bool_decide_eq_true_2
        by (rewrite length_app; simpl; lia).
      replace (<[length pre := guess]> (pre ++ g :: gl))
        with ((pre ++ [guess]) ++ gl).
      2:{ rewrite insert_app_r_alt, Nat.sub_diag by lia.
          by rewrite <- app_assoc. }
      replace (S (length pre)) with (length (pre ++ [guess]))
        by (rewrite length_app; simpl; lia).
      rewrite IH by done. by rewrite <- app_assoc.
    + replace (pre ++ g :: gl) with ((pre ++ [g]) ++ gl)
        by (by rewrite <- app_assoc).
      replace (S (length pre)) with (length (pre ++ [g]))
        by (rewrite length_app; simpl; lia).
      rewrite IH by done. by rewrite <- app_assoc.
Qed.

Lemma reveal_0 (word guess : str) (gl : list str) :
  length gl = length word →
  reveal 0 word guess gl = Assigned (mask word guess gl).
Proof. intros Hlen. by apply (reveal_in_range word guess []). Qed.

Lemma length_mask (word guess : str) (gl : list str) :
  length gl = length word → length (mask word guess gl) = length word.
Proof. intros Hlen. unfold mask. rewrite length_zip_with. lia. Qed.

Lemma lookup_mask (word guess : str) (gl : list str) (i : nat) (l : char)
    (g : str) :
  word !! i = Some l → gl !! i = Some g →
  mask word guess gl !! i = Some (if bool_decide ([l] = guess) then guess else g).
Proof.
  intros Hl Hg. unfold mask. rewrite lookup_zip_with, Hl. simpl. by rewrite Hg.
Qed.

(** Revealing keeps what was in the list, unless the cell is overwritten. *)
Lemma elem_of_mask_guess (c : char) (word : str) (gl : list str) :
  length gl = length word → c ∈ word → [c] ∈ mask word [c] gl.
Proof.
  intros Hlen [i Hi]%list_elem_of_lookup.
  destruct (lookup_lt_is_Some_2 gl i) as [g Hg].
  { rewrite Hlen. by eapply lookup_lt_Some. }
  apply list_elem_of_lookup. exists i.
  rewrite (lookup_mask _ _ _ _ _ _ Hi Hg). by rewrite bool_decide_eq_true_2.
Qed.

(** ** The store *)

Lemma stats_score (s r : Z) : stats s r !! lit "Score" = Some s.
Proof. unfold stats. rewrite lookup_insert_ne by done. apply lookup_insert_eq. Qed.

Lemma stats_rounds (s r : Z) : stats s r !! lit "Rounds" = Some r.
Proof. unfold stats. apply lookup_insert_eq. Qed.

Lemma stats_dom (s r : Z) :
  dom (stats s r) = ({[lit "Score"; lit "Rounds"]} : gset str).
Proof. unfold stats. rewrite !dom_insert_L, dom_empty_L. set_solver. Qed.

Lemma stats_inj (s r s' r' : Z) : stats s r = stats s' r' → s = s' ∧ r = r'.
Proof.
  intros Heq. split.
  - pose proof (stats_score s r) as Hs. rewrite Heq, stats_score in Hs. congruence.
  - pose proof (stats_rounds s r) as Hr. rewrite Heq, stats_rounds in Hr. congruence.
Qed.

Lemma flushed_flush (σ : world) : flushed (flush σ).
Proof. unfold flushed, flush, update_player. simpl. apply lookup_insert_eq. Qed.

(** ** The round *)

Section Round.
Context {U : Unicode}.

Lemma valid_guess_inv (guess : str) :
  valid_guess guess ↔ ∃ c, guess = [c] ∧ isalpha c = true.
Proof.
  unfold valid_guess. split.
  - intros [Hlen Ha]. destruct guess as [|c [|??]]; try done.
    exists c. simpl in Ha. by rewrite andb_true_r in Ha.
  - intros (c & -> & Hc). simpl. by rewrite Hc.
Qed.

Lemma invalid_guess_test (guess : str) :
  ¬ valid_guess guess ↔
  negb (length guess =? 1)%nat || negb (str_isalpha guess) = true.
Proof.
  unfold valid_guess. rewrite orb_true_iff, !negb_true_iff, Nat.eqb_neq.
  destruct (str_isalpha guess), (decide (length guess = 1%nat));
    intuition congruence.
Qed.

Lemma round_ok_length (word : str) (rs : round) :
  round_ok word rs → length (guessed_letters rs) = length word.
Proof. intros [Hc _ _ _ _]. symmetry. by eapply Forall2_length. Qed.

Lemma round_ok_init (word : str) : round_ok word (init_round word).
Proof.
  split; simpl; try done.
  - induction word as [|l word IH]; simpl; constructor; auto.
  - intros g Hg. by apply elem_of_nil in Hg.
  - constructor.
Qed.

Lemma loop_head_None (word : str) (rs : round) (σ : world) :
  loop_head word rs σ = None ↔
  guessed_word word (guessed_letters rs) = false ∧ attempt rs ≠ 7.
Proof.
  unfold loop_head. destruct (guessed_word _ _).
  - split; [done | by intros [? _]].
  - case_bool_decide as Ha.
    + destruct (hangman_stage _); split; try done; by intros [_ ?].
    + done.
Qed.

(** The four ways through the loop body. *)
Lemma loop_body_duplicate (word : str) (rs : round) (σ : world) (guess : str) :
  guess ∈ wrong_letters rs → loop_body word rs σ guess = Continue rs σ.
Proof.
  intros Hin. unfold loop_body, list_in. by rewrite bool_decide_eq_true_2.
Qed.

Lemma loop_body_invalid (word : str) (rs : round) (σ : world) (guess : str) :
  ¬ valid_guess guess → loop_body word rs σ guess = Continue rs σ.
Proof.
  intros Hbad%invalid_guess_test. unfold loop_body. rewrite Hbad.
  by destruct (list_in _ _).
Qed.

Lemma loop_body_correct (word : str) (rs : round) (σ : world) (c : char) :
  [c] ∉ wrong_letters rs → isalpha c = true → c ∈ word →
  length (guessed_letters rs) = length word →
  loop_body word rs σ [c]
  = Continue (mkRound (mask word [c] (guessed_letters rs))
                      (wrong_letters rs) (attempt rs))
             (add_score 10 σ).
Proof.
  intros Hnew Hc Hin Hlen. unfold loop_body, list_in.
  rewrite bool_decide_eq_false_2 by done. simpl. rewrite Hc. simpl.
  apply str_in_singleton in Hin. rewrite Hin. by rewrite reveal_0.
Qed.

Lemma loop_body_wrong (word : str) (rs : round) (σ : world) (c : char) :
  [c] ∉ wrong_letters rs → isalpha c = true → c ∉ word →
  -7 ≤ attempt rs < 7 →
  loop_body word rs σ [c]
  = Continue (mkRound (guessed_letters rs) (wrong_letters rs ++ [[c]])
                      (attempt rs + 1))
             σ.
Proof.
  intros Hnew Hc Hin Ha. unfold loop_body, list_in, hangman_stage.
  rewrite bool_decide_eq_false_2 by done. simpl. rewrite Hc. simpl.
  apply str_in_singleton_false in Hin. rewrite Hin.
  by rewrite bool_decide_eq_true_2.
Qed.

Lemma mask_cells (word guess : str) (gl : list str) :
  Forall2 (λ l g, g = [l] ∨ g = underscore) word gl →
  Forall2 (λ l g, g = [l] ∨ g = underscore) word (mask word guess gl).
Proof.
  induction 1 as [|l g word gl Hg _ IH]; [constructor|].
  unfold mask. cbn [zip_with]. constructor; [|exact IH].
  case_bool_decide; auto.
Qed.

(** A letter of the word is never among the wrong letters. *)
Lemma round_ok_not_wrong (word : str) (rs : round) (c : char) :
  round_ok word rs → c ∈ word → [c] ∉ wrong_letters rs.
Proof.
  intros Hok Hin Hw. destruct (ok_wrong _ _ Hok _ Hw) as (d & [= <-] & _ & Hd).
  done.
Qed.

(** The invariant is kept by every pass through the body, and the body never
    raises: the index of the reveal loop and the index of the stage are in
    range. *)
Lemma round_ok_step (word : str) (rs : round) (σ : world) (guess : str) :
  round_ok word rs → loop_head word rs σ = None →
  ∃ rs' σ', loop_body word rs σ guess = Continue rs' σ' ∧ round_ok word rs'.
Proof.
  intros Hok [_ Hne]%loop_head_None.
  destruct (decide (guess ∈ wrong_letters rs)) as [Hdup|Hnew].
  { exists rs, σ. by rewrite loop_body_duplicate. }
  destruct (decide (valid_guess guess)) as [Hv|Hbad].
  2:{ exists rs, σ. by rewrite loop_body_invalid. }
  apply valid_guess_inv in Hv as (c & -> & Hc).
  pose proof (round_ok_length _ _ Hok) as Hlen.
  destruct Hok as [Hcells Hwrong Hnd Hatt Hb].
  destruct (decide (c ∈ word)) as [Hin|Hout].
  - eexists _, _. split; [by apply loop_body_correct|].
    split; simpl; try done. by apply mask_cells.
  - eexists _, _. split; [apply loop_body_wrong; try done; lia|].
    split; simpl; try done.
    + intros g [Hg| ->%list_elem_of_singleton]%elem_of_app; eauto.
    + apply NoDup_app. split_and!; [done| |apply NoDup_singleton].
      intros g Hg ->%list_elem_of_singleton. done.
    + rewrite length_app. simpl. lia.
    + lia.
Qed.

(** So it holds whenever the loop is at its head. *)
Lemma reachable_ok (word : str) (rs : round) :
  reachable word rs → round_ok word rs.
Proof.
  induction 1 as [|rs rs' σ σ' guess _ IH Hh Hb]; [apply round_ok_init|].
  destruct (round_ok_step word rs σ guess IH Hh) as (rs1 & σ1 & Hb1 & Hok).
  rewrite Hb in Hb1. by injection Hb1 as -> _.
Qed.

End Round.

Lemma add_score_0 (σ : world) : add_score 0 σ = σ.
Proof. destruct σ as [[???] ?]. unfold add_score. simpl. by rewrite Z.add_0_r. Qed.

Lemma add_score_add (a b : Z) (σ : world) :
  add_score b (add_score a σ) = add_score (a + b) σ.
Proof. unfold add_score. simpl. by rewrite Z.add_assoc. Qed.

(** ** Runs of the loop *)

Section Runs.
Context {U : Unicode}.

Lemma play_loop_unfold (word : str) (rs : round) (σ : world) (lines : list str) :
  play_loop word rs σ lines =
  match loop_head word rs σ with
  | Some out => (out, lines)
  | None =>
      match lines with
      | [] => (Raise EOFError, rs, σ, [])
      | line :: rest =>
          match loop_body word rs σ (strip line) with
          | Continue rs' σ' => play_loop word rs' σ' rest
          | Exit r rs' σ' => (r, rs', σ', rest)
          end
      end
  end.
Proof. by destruct lines. Qed.

Lemma all_revealed_guessed (word : str) (gl : list str) :
  all_revealed word gl → guessed_word word gl = true.
Proof.
  intros Hall. apply guessed_word_spec. intros c [i Hi]%list_elem_of_lookup.
  destruct (Forall2_lookup_l _ _ _ _ _ Hall Hi) as (g & Hg & ->).
  apply list_elem_of_lookup. eauto.
Qed.

Lemma play_loop_won (word : str) (rs : round) (σ : world) (lines : list str) :
  guessed_word word (guessed_letters rs) = true →
  play_loop word rs σ lines = (Return true None, rs, flush (add_round σ), lines).
Proof.
  intros Hg. rewrite play_loop_unfold. unfold loop_head. by rewrite Hg.
Qed.


Lemma play_loop_continue (word : str) (rs rs' : round) (σ σ' : world)
    (line : str) (rest : list str) :
  loop_head word rs σ = None →
  loop_body word rs σ (strip line) = Continue rs' σ' →
  play_loop word rs σ (line :: rest) = play_loop word rs' σ' rest.
Proof. intros Hh Hb. rewrite play_loop_unfold, Hh, Hb. done. Qed.


(** Correct guesses only, covering the word: the loop returns a win, at the
    latest when the lines are used up. *)
Lemma correct_guesses_run (word : str) (lines : list str) :
  ∀ (rs : round) (σ : world),
    underscore ∉ ((λ l, [l]) <$> word) →
    round_ok word rs → attempt rs ≠ 7 →
    (∀ line, line ∈ lines →
             ∃ c, strip line = [c] ∧ isalpha c = true ∧ c ∈ word) →
    (∀ c, c ∈ word →
          [c] ∈ guessed_letters rs ∨ [c] ∈ (strip <$> lines)) →
    ∃ (n : nat) (rs' : round) (rest : list str),
      play_loop word rs σ lines
      = (Return true None, rs',
         flush (add_round (add_score (10 * Z.of_nat n) σ)), rest)
      ∧ (n ≤ length lines)%nat
      ∧ wrong_letters rs' = wrong_letters rs ∧ attempt rs' = attempt rs.
Proof.
  induction lines as [|line lines IH]; intros rs σ Hus Hok Ha Hlines Hcover.
  - exists 0%nat, rs, []. rewrite play_loop_won.
    + split_and!; try done. by rewrite add_score_0.
    + apply guessed_word_spec. intros c Hc.
      destruct (Hcover c Hc) as [?|Hn]; [done|]. by apply elem_of_nil in Hn.
  - destruct (guessed_word word (guessed_letters rs)) eqn:Hg.
    { exists 0%nat, rs, (line :: lines). rewrite play_loop_won by done.
      split_and!; try done; [|simpl; lia]. by rewrite add_score_0. }
    destruct (Hlines line) as (c & Hc & Hac & Hin); [by left|].
    pose proof (round_ok_length _ _ Hok) as Hlen.
    pose proof (round_ok_not_wrong _ _ _ Hok Hin) as Hnew.
    pose proof (loop_body_correct word rs σ c Hnew Hac Hin Hlen) as Hbody.
    destruct (round_ok_step word rs σ [c] Hok) as (rs1 & σ1 & Hb1 & Hok1).
    { by apply loop_head_None. }
    rewrite Hbody in Hb1. injection Hb1 as <- <-.
    destruct (IH (mkRound (mask word [c] (guessed_letters rs))
                          (wrong_letters rs) (attempt rs))
                 (add_score 10 σ)) as (n & rs' & rest & Hrun & Hn & Hwl & Hat);
      try done.
    { intros line' Hl'. apply Hlines. by right. }
    { intros c' Hc'. simpl.
      destruct (Hcover c' Hc') as [Hold|Hnow].
      - left. apply list_elem_of_lookup in Hold as [j Hj].
        destruct (lookup_lt_is_Some_2 word j) as [l Hl].
        { rewrite <- Hlen. by eapply lookup_lt_Some. }
        destruct (decide ([l] = [c])) as [Heq|Hne].
        + destruct (Forall2_lookup_lr _ _ _ _ _ _ (ok_cells _ _ Hok) Hl Hj)
            as [Hcell|Hcell].
          * rewrite Heq in Hcell. injection Hcell as ->.
            by apply elem_of_mask_guess.
          * exfalso. apply Hus. rewrite <- Hcell.
            by apply (list_elem_of_fmap_2 (λ l, [l])).
        + apply list_elem_of_lookup. exists j.
          rewrite (lookup_mask _ _ _ _ _ _ Hl Hj).
          by rewrite bool_decide_eq_false_2.
      - rewrite fmap_cons, Hc in Hnow.
        apply elem_of_cons in Hnow as [[= ->]|Hlater]; [left|by right].
        by apply elem_of_mask_guess. }
    exists (S n), rs', rest. split_and!.
    + erewrite play_loop_continue; [|by apply loop_head_None|by rewrite Hc].
      rewrite Hrun, add_score_add.
      by replace (10 + 10 * Z.of_nat n) with (10 * Z.of_nat (S n)) by lia.
    + simpl. lia.
    + done.
    + done.
Qed.

Lemma loop_head_no_index_error (word : str) (rs rs' : round) (σ σ' : world)
    (r : result) :
  loop_head word rs σ = Some (r, rs', σ') → r ≠ Raise IndexError.
Proof.
  unfold loop_head, hangman_stage. repeat case_match; intros; simplify_eq; try done.
  repeat case_bool_decide; try done. lia.
Qed.

(** From a state that satisfies the invariant the loop never leaves with
    [IndexError]: it returns, or the input ends. *)
Lemma play_loop_no_index_error (word : str) (lines : list str) :
  ∀ (rs : round) (σ : world),
    round_ok word rs →
    (play_loop word rs σ lines).1.1.1 ≠ Raise IndexError.
Proof.
  induction lines as [|line lines IH]; intros rs σ Hok;
    rewrite play_loop_unfold;
    destruct (loop_head word rs σ) as [[[r rs0] σ0]|] eqn:Hh.
  - by eapply loop_head_no_index_error.
  - done.
  - by eapply loop_head_no_index_error.
  - destruct (round_ok_step word rs σ (strip line) Hok Hh)
      as (rs' & σ' & -> & Hok'). by apply IH.
Qed.

End Runs.

(** ** The word list *)

Lemma words_checked :
  forallb (λ w, forallb lowercase w
                && negb (guessed_word w (guessed_letters (init_round w))))
          words = true.
Proof. vm_compute. reflexivity. Qed.

Lemma words_lowercase (w : str) (c : char) :
  w ∈ words → c ∈ w → lowercase c = true.
Proof.
  intros Hw%list_elem_of_In Hc%list_elem_of_In.
  pose proof words_checked as Hall. rewrite forallb_forall in Hall.
  apply Hall in Hw. apply andb_true_iff in Hw as [Hl _].
  rewrite forallb_forall in Hl. by apply Hl.
Qed.


Lemma get_random_word_in (rnd : nat) : get_random_word rnd ∈ words.
Proof.
  unfold get_random_word. apply list_elem_of_In, nth_In.
  apply Nat.mod_upper_bound. done.
Qed.

Lemma lowercase_isalpha {U : Unicode} (c : char) :
  lowercase c = true → isalpha c = true.
Proof.
  unfold lowercase. intros [Hlo Hhi]%andb_true_iff.
  apply N.leb_le in Hlo, Hhi.
  rewrite isalpha_ascii by lia. unfold ascii_isalpha.
  apply orb_true_iff. right. apply andb_true_iff. by rewrite !N.leb_le.
Qed.

Lemma lowercase_not_underscore (word : str) :
  (∀ c, c ∈ word → lowercase c = true) →
  underscore ∉ ((λ l, [l]) <$> word).
Proof.
  intros Hall (c & Heq & Hc)%list_elem_of_fmap_1.
  injection Heq as <-. by specialize (Hall _ Hc).
Qed.

(** ** Properties of the store *)

(** C8: after [create_player name], [load_players] maps [name] to the entry
    with [Score] 0 and [Rounds] 0, whose only fields are ["Score"] and
    ["Rounds"]; this holds for every earlier content of the file, so an
    entry already stored under [name] is overwritten. *)
Theorem create_player_then_load (name : str) (f : file) :
  (create_player name f).1 = mkPlayer name 0 0 ∧
  load_players (create_player name f).2 !! name = Some (stats 0 0) ∧
  stats 0 0 !! lit "Score" = Some 0 ∧
  stats 0 0 !! lit "Rounds" = Some 0 ∧
  dom (stats 0 0) = ({[lit "Score"; lit "Rounds"]} : gset str).
Proof.
  split_and!.
  - reflexivity.
  - unfold create_player. simpl. apply lookup_insert_eq.
  - apply stats_score.
  - apply stats_rounds.
  - apply stats_dom.
Qed.

(** C9: [update_player] is idempotent: a second call with the same player
    leaves the file as the first call left it; a call stores under the
    player's name an entry whose ["Score"] is the player's current score,
    whose ["Rounds"] is the player's current rounds and which has no other
    field, and keeps the entry of every other name. *)
Theorem update_player_idempotent (p : Player) (f : file) :
  update_player p (update_player p f) = update_player p f ∧
  load_players (update_player p f) !! player_name p
  = Some (stats (score p) (rounds p)) ∧
  (∃ e, load_players (update_player p f) !! player_name p = Some e
        ∧ e !! lit "Score" = Some (score p)
        ∧ e !! lit "Rounds" = Some (rounds p)
        ∧ dom e = ({[lit "Score"; lit "Rounds"]} : gset str)) ∧
  ∀ name, name ≠ player_name p →
          load_players (update_player p f) !! name = load_players f !! name.
Proof.
  unfold update_player. simpl. split_and!.
  - by rewrite insert_insert_eq.
  - apply lookup_insert_eq.
  - exists (stats (score p) (rounds p)). split_and!.
    + apply lookup_insert_eq.
    + apply stats_score.
    + apply stats_rounds.
    + apply stats_dom.
  - intros name Hne. by rewrite lookup_insert_ne.
Qed.

(** ** Properties of one guess *)

Section Guess.
Context {U : Unicode}.

Lemma mask_revealed (word : str) (c : char) (gl : list str) :
  length gl = length word →
  (∀ i, word !! i = Some c → gl !! i = Some [c]) →
  mask word [c] gl = gl.
Proof.
  intros Hlen Hrev. apply list_eq. intros i.
  destruct (word !! i) as [l|] eqn:Hl.
  - destruct (lookup_lt_is_Some_2 gl i) as [g Hg].
    { rewrite Hlen. by eapply lookup_lt_Some. }
    rewrite (lookup_mask _ _ _ _ _ _ Hl Hg). case_bool_decide as Heq; [|done].
    injection Heq as ->. symmetry. by apply Hrev.
  - apply lookup_ge_None in Hl.
    rewrite !(proj2 (lookup_ge_None _ _)); [done|lia|].
    rewrite length_mask by done. lia.
Qed.

Lemma loop_body_revealed (word : str) (rs : round) (σ : world) (c : char) :
  round_ok word rs → isalpha c = true → c ∈ word →
  (∀ i, word !! i = Some c → guessed_letters rs !! i = Some [c]) →
  loop_body word rs σ [c] = Continue rs (add_score 10 σ).
Proof.
  intros Hok Hc Hin Hrev.
  rewrite loop_body_correct; try done.
  - rewrite mask_revealed; [by destruct rs|by apply round_ok_length|done].
  - by eapply round_ok_not_wrong.
  - by apply round_ok_length.
Qed.

(** C4: the win test comes before the test of the attempt counter: when
    every position of the word is revealed the loop returns [(True, None)],
    whatever the value of [attempt] (seven included), and so does not return
    the lost outcome. *)
Theorem win_test_before_attempt_test (word : str) (rs : round) (σ : world)
    (lines : list str) :
  all_revealed word (guessed_letters rs) →
  play_loop word rs σ lines = (Return true None, rs, flush (add_round σ), lines)
  ∧ ∀ w, (play_loop word rs σ lines).1.1.1 ≠ Return false w.
Proof.
  intros Hall%all_revealed_guessed.
  rewrite play_loop_won by done. split; [done|]. intros w. simpl. discriminate.
Qed.

(** C5: an accepted guess that occurs in the word puts the guess at every
    position of the word that holds the guessed letter and leaves the other
    positions alone, adds exactly 10 to the score, once, and changes neither
    [attempt] nor [wrong_letters] (nor the rounds, nor the file). *)
Theorem correct_guess_reveals_and_scores (word : str) (rs : round) (σ : world)
    (guess : str) :
  round_ok word rs → valid_guess guess → str_in guess word = true →
  ∃ rs' σ',
    loop_body word rs σ guess = Continue rs' σ'
    ∧ (∀ i l, word !! i = Some l → [l] = guess →
              guessed_letters rs' !! i = Some guess)
    ∧ (∀ i l, word !! i = Some l → [l] ≠ guess →
              guessed_letters rs' !! i = guessed_letters rs !! i)
    ∧ length (guessed_letters rs') = length word
    ∧ score (player σ') = score (player σ) + 10
    ∧ rounds (player σ') = rounds (player σ)
    ∧ attempt rs' = attempt rs
    ∧ wrong_letters rs' = wrong_letters rs.
Proof.
  intros Hok (c & -> & Hc)%valid_guess_inv Hin%str_in_singleton.
  pose proof (round_ok_length _ _ Hok) as Hlen.
  eexists _, _. split.
  { apply loop_body_correct; try done. by eapply round_ok_not_wrong. }
  simpl. split_and!; try done.
  - intros i l Hl Heq.
    destruct (lookup_lt_is_Some_2 (guessed_letters rs) i) as [g Hg].
    { rewrite Hlen. by eapply lookup_lt_Some. }
    rewrite (lookup_mask _ _ _ _ _ _ Hl Hg). by rewrite bool_decide_eq_true_2.
  - intros i l Hl Hne.
    destruct (lookup_lt_is_Some_2 (guessed_letters rs) i) as [g Hg].
    { rewrite Hlen. by eapply lookup_lt_Some. }
    rewrite (lookup_mask _ _ _ _ _ _ Hl Hg), Hg.
    by rewrite bool_decide_eq_false_2.
  - by apply length_mask.
Qed.

(** C6: a guess that is not exactly one alphabetic character is rejected:
    the pass through the loop body ends at the loop head with the locals, the
    player and the file as they were, and the loop goes on with the next line
    of input. *)
Theorem invalid_guess_rejected (word : str) (rs : round) (σ : world)
    (guess : str) :
  ¬ valid_guess guess →
  loop_body word rs σ guess = Continue rs σ
  ∧ ∀ line rest,
      strip line = guess → loop_head word rs σ = None →
      play_loop word rs σ (line :: rest) = play_loop word rs σ rest.
Proof.
  intros Hbad. split; [by apply loop_body_invalid|].
  intros line rest <- Hhead.
  apply play_loop_continue; [done | by apply loop_body_invalid].
Qed.

(** C7: a guess already in [wrong_letters] is rejected with the locals, the
    player and the file as they were, and the loop goes on with the next
    line; so a wrong letter guessed twice raises [attempt] by one the first
    time and not at all the second time. *)
Theorem duplicate_wrong_guess_rejected (word : str) (rs : round) (σ : world)
    (guess : str) :
  (guess ∈ wrong_letters rs →
   loop_body word rs σ guess = Continue rs σ
   ∧ ∀ line rest,
       strip line = guess → loop_head word rs σ = None →
       play_loop word rs σ (line :: rest) = play_loop word rs σ rest)
  ∧ (round_ok word rs → loop_head word rs σ = None →
     valid_guess guess → str_in guess word = false →
     guess ∉ wrong_letters rs →
     ∃ rs1,
       loop_body word rs σ guess = Continue rs1 σ
       ∧ attempt rs1 = attempt rs + 1
       ∧ guess ∈ wrong_letters rs1
       ∧ loop_body word rs1 σ guess = Continue rs1 σ).
Proof.
  split.
  - intros Hdup. split; [by apply loop_body_duplicate|].
    intros line rest <- Hhead.
    apply play_loop_continue; [done | by apply loop_body_duplicate].
  - intros Hok [_ Hne]%loop_head_None (c & -> & Hc)%valid_guess_inv
      Hout%str_in_singleton_false Hnew.
    pose proof (ok_attempt _ _ Hok) as Ha. pose proof (ok_bound _ _ Hok) as Hb.
    eexists. split; [apply loop_body_wrong; try done; lia|].
    simpl. split_and!; [done|set_solver|].
    apply loop_body_duplicate. simpl. set_solver.
Qed.

End Guess.

(** ** Properties of whole rounds *)

Section Rounds.
Context {U : Unicode}.

Lemma strip_singleton (c : char) : isspace c = false → strip [c] = [c].
Proof.
  intros Hc. unfold strip, rstrip. simpl. rewrite Hc.
  change (reverse [c]) with [c]. simpl. by rewrite Hc.
Qed.

Lemma strip_lowercase (c : char) : lowercase c = true → strip [c] = [c].
Proof.
  unfold lowercase. intros [Hlo Hhi]%andb_true_iff.
  apply N.leb_le in Hlo, Hhi. apply strip_singleton.
  rewrite isspace_ascii by lia. unfold ascii_isspace.
  apply orb_false_iff. split; apply andb_false_iff.
  - right. apply N.leb_gt. lia.
  - right. apply N.leb_gt. lia.
Qed.

Lemma loop_head_flushed (word : str) (rs rs' : round) (σ σ' : world)
    (won : bool) (w : option str) :
  loop_head word rs σ = Some (Return won w, rs', σ') → flushed σ'.
Proof.
  unfold loop_head. destruct (guessed_word _ _).
  - intros [= <- <- <- <-]. apply flushed_flush.
  - case_bool_decide; [|done]. destruct (hangman_stage _); [|done].
    intros [= <- <- <- <-]. apply flushed_flush.
Qed.

Lemma loop_body_exit (word : str) (rs rs' : round) (σ σ' : world)
    (guess : str) (r : result) :
  loop_body word rs σ guess = Exit r rs' σ' → r = Raise IndexError.
Proof.
  unfold loop_body. repeat case_match; try done; by intros [= <- _ _].
Qed.

Lemma play_loop_return_flushed (word : str) (lines : list str) :
  ∀ (rs rs' : round) (σ σ' : world) (won : bool) (w : option str)
    (rest : list str),
    play_loop word rs σ lines = (Return won w, rs', σ', rest) → flushed σ'.
Proof.
  induction lines as [|line lines IH]; intros rs rs' σ σ' won w rest;
    rewrite play_loop_unfold.
  - destruct (loop_head word rs σ) as [[[r rs0] σ0]|] eqn:Hh; [|done].
    intros [= -> -> -> _]. by eapply loop_head_flushed.
  - destruct (loop_head word rs σ) as [[[r rs0] σ0]|] eqn:Hh.
    + intros [= -> -> -> _]. by eapply loop_head_flushed.
    + destruct (loop_body word rs σ (strip line)) as [rs1 σ1|r rs1 σ1] eqn:Hb.
      * apply IH.
      * apply loop_body_exit in Hb as ->. done.
Qed.

(** Guessing a revealed letter over and over: only the score moves. *)
Lemma repeat_revealed_run (word : str) (rs : round) (c : char)
    (again : list str) :
  round_ok word rs → guessed_word word (guessed_letters rs) = false →
  attempt rs ≠ 7 → isalpha c = true → c ∈ word →
  (∀ i, word !! i = Some c → guessed_letters rs !! i = Some [c]) →
  (∀ line, line ∈ again → strip line = [c]) →
  ∀ (σ : world) (rest : list str),
    play_loop word rs σ (again ++ rest)
    = play_loop word rs (add_score (10 * Z.of_nat (length again)) σ) rest.
Proof.
  intros Hok Hg Ha Hc Hin Hrev. induction again as [|line again IH];
    intros Hall σ rest.
  - simpl. by rewrite add_score_0.
  - cbn [app]. erewrite play_loop_continue; cycle 1.
    + by apply loop_head_None.
    + rewrite (Hall line) by (by left). by apply loop_body_revealed.
    + rewrite IH by (intros ??; apply Hall; by right).
      rewrite add_score_add. do 2 f_equal. rewrite length_cons. lia.
Qed.

End Rounds.

Section RoundClaims.
Context {U : Unicode}.

(** C1, as the code has it: the player is written to the file when the round
    returns, not after each correct guess.  An accepted correct guess adds 10
    to the score of the player object and leaves the file as it was; and
    whenever [play_game]'s loop returns, won or lost, the file holds the
    player's current score and rounds under the player's name. *)
Theorem score_flushed_when_round_returns :
  (∀ (word : str) (rs : round) (σ : world) (guess : str),
     round_ok word rs → valid_guess guess → str_in guess word = true →
     ∃ rs' σ',
       loop_body word rs σ guess = Continue rs' σ'
       ∧ score (player σ') = score (player σ) + 10
       ∧ disk σ' = disk σ)
  ∧ (∀ (word : str) (rs rs' : round) (σ σ' : world) (lines rest : list str)
       (won : bool) (w : option str),
       play_loop word rs σ lines = (Return won w, rs', σ', rest) →
       load_players (disk σ') !! player_name (player σ')
       = Some (stats (score (player σ')) (rounds (player σ')))).
Proof.
  split.
  - intros word rs σ guess Hok (c & -> & Hc)%valid_guess_inv
      Hin%str_in_singleton.
    eexists _, _. split.
    + apply loop_body_correct; try done.
      * by eapply round_ok_not_wrong.
      * by apply round_ok_length.
    + done.
  - intros word rs rs' σ σ' lines rest won w Hrun.
    by apply (play_loop_return_flushed _ _ _ _ _ _ _ _ _ Hrun).
Qed.

(** C2: when every position of the word is revealed the loop returns
    [(True, None)], with the rounds of the player one higher, the score as it
    was, and the player written to the file.  And for every word of the word
    list: when each guess is a letter of the word and every letter of the
    word is among the guesses, the round returns [(True, None)], with no
    wrong letter, no attempt used, one round more and the player written to
    the file. *)
Theorem all_letters_guessed_wins :
  (∀ (word : str) (rs : round) (σ : world) (lines : list str),
     all_revealed word (guessed_letters rs) →
     ∃ σ',
       play_loop word rs σ lines = (Return true None, rs, σ', lines)
       ∧ rounds (player σ') = rounds (player σ) + 1
       ∧ score (player σ') = score (player σ)
       ∧ disk σ' = update_player (player σ') (disk σ)
       ∧ flushed σ')
  ∧ (∀ (rnd : nat) (σ : world) (lines : list str),
       (∀ line, line ∈ lines →
                ∃ c, strip line = [c] ∧ c ∈ get_random_word rnd) →
       (∀ c, c ∈ get_random_word rnd →
             ∃ line, line ∈ lines ∧ strip line = [c]) →
       ∃ rs' σ' rest,
         play_game rnd σ lines = (Return true None, rs', σ', rest)
         ∧ wrong_letters rs' = [] ∧ attempt rs' = 0
         ∧ rounds (player σ') = rounds (player σ) + 1
         ∧ flushed σ').
Proof.
  split.
  - intros word rs σ lines Hall%all_revealed_guessed.
    exists (flush (add_round σ)). rewrite play_loop_won by done.
    split_and!; try done. apply flushed_flush.
  - intros rnd σ lines Hlines Hcover. unfold play_game.
    pose proof (get_random_word_in rnd) as Hw.
    set (word := get_random_word rnd) in *.
    destruct (correct_guesses_run word lines (init_round word) σ)
      as (n & rs' & rest & Hrun & _ & Hwl & Hat).
    + apply lowercase_not_underscore. intros c Hc. by eapply words_lowercase.
    + apply round_ok_init.
    + done.
    + intros line Hl. destruct (Hlines line Hl) as (c & Hs & Hc).
      exists c. split_and!; try done.
      apply lowercase_isalpha. by eapply words_lowercase.
    + intros c Hc. right. destruct (Hcover c Hc) as (line & Hl & <-).
      by apply list_elem_of_fmap_2.
    + exists rs', (flush (add_round (add_score (10 * Z.of_nat n) σ))), rest.
      split_and!; try done. apply flushed_flush.
Qed.


(** One pass of the loop on a lowercase letter of the word that is not among
    the wrong letters. *)
Ltac correct_step :=
  erewrite play_loop_continue;
  [ | done
    | rewrite strip_lowercase by done;
      apply loop_body_correct;
      [ by intros ?%elem_of_nil | by apply lowercase_isalpha | done | done ] ].

(** C10: a guess of a letter of the word whose positions are all revealed
    already takes the branch of a correct guess again: the score grows by 10
    and the locals (revealed positions, wrong letters, attempts) stay as they
    are.  So the score of one round has no bound: for every [n] there is an
    input on which a round is won without a wrong guess and earns 10 times
    the number of distinct letters of its word and [10 * n] on top. *)
Theorem revealed_letter_scores_again :
  (∀ (word : str) (rs : round) (σ : world) (c : char),
     round_ok word rs → isalpha c = true → c ∈ word →
     (∀ i, word !! i = Some c → guessed_letters rs !! i = Some [c]) →
     loop_body word rs σ [c] = Continue rs (add_score 10 σ)
     ∧ score (player (add_score 10 σ)) = score (player σ) + 10)
  ∧ (∀ (n : nat) (σ : world),
       ∃ rnd lines rs' σ',
         play_game rnd σ lines = (Return true None, rs', σ', [])
         ∧ attempt rs' = 0
         ∧ score (player σ') - score (player σ)
           = 10 * Z.of_nat (length (remove_dups (get_random_word rnd)))
             + 10 * Z.of_nat n).
Proof.
  split.
  - intros. split; [by apply loop_body_revealed|done].
  - intros n σ.
    set (rs1 := mkRound [[99%N]; underscore; underscore] [] 0).
    assert (Hc : 99%N ∈ cat) by (by apply (bool_decide_unpack _)).
    assert (Ha : 97%N ∈ cat) by (by apply (bool_decide_unpack _)).
    assert (Ht : 116%N ∈ cat) by (by apply (bool_decide_unpack _)).
    assert (Hok1 : round_ok cat rs1).
    { destruct (round_ok_step cat (init_round cat) σ [99%N])
        as (rs' & σ'' & Hb & Hok'); [apply round_ok_init|done|].
      rewrite loop_body_correct in Hb; try done.
      - injection Hb as <- <-. exact Hok'.
      - by intros ?%elem_of_nil.
      - by apply lowercase_isalpha. }
    eexists 21%nat, ([99%N] :: replicate n [99%N] ++ [[97%N]; [116%N]]), _, _.
    unfold play_game. change (get_random_word 21) with cat. split_and!.
    + correct_step.
      change (mkRound _ _ _) with rs1.
      rewrite (repeat_revealed_run cat rs1 99%N); try done.
      2:{ by apply lowercase_isalpha. }
      2:{ intros [|[|[|i]]]; done. }
      2:{ intros line ->%elem_of_replicate_inv. by apply strip_lowercase. }
      correct_step. correct_step.
      by rewrite play_loop_won.
    + done.
    + simpl. rewrite length_replicate.
      change (length (remove_dups cat)) with 3%nat. lia.
Qed.

End RoundClaims.

(** ** The claims on concrete rounds *)

(** Membership in a list that computes, split into its cases. *)
Ltac cases_of H :=
  apply list_elem_of_In in H; vm_compute in H;
  repeat (destruct H as [H|H]; [try subst|]); try contradiction.

(** C1 fails as stated: in the round on ["cat"] of the new player Alice, the
    guess ["c"] is accepted and brings the score to 10, while the file still
    maps Alice to score 0; a second guess is then read with the file
    unchanged, and when the input ends there the 20 points are in memory
    only. *)
Lemma score_not_flushed_after_guess :
  loop_body (U := ascii_unicode) cat (init_round cat) fresh_world (lit "c")
  = Continue cat_c (add_score 10 fresh_world)
  ∧ score (player (add_score 10 fresh_world)) = 10
  ∧ load_players (disk (add_score 10 fresh_world)) !! alice = Some (stats 0 0)
  ∧ ¬ flushed (add_score 10 fresh_world)
  ∧ play_loop (U := ascii_unicode) cat (init_round cat) fresh_world
      (lit <$> ["c"; "a"]%string)
    = (Raise EOFError, mkRound [lit "c"; lit "a"; underscore] [] 0,
       add_score 20 fresh_world, [])
  ∧ ¬ flushed (add_score 20 fresh_world).
Proof.
  assert (Hstale : ∀ n, n ≠ 0 → ¬ flushed (add_score n fresh_world)).
  { intros n Hn Heq. unfold flushed in Heq.
    change (<[alice := stats 0 0]> (∅ : gmap str (gmap str Z)) !! alice
            = Some (stats (0 + n) 0)) in Heq.
    rewrite lookup_insert_eq in Heq.
    apply (inj Some), stats_inj in Heq as [Hs _]. lia. }
  split_and!; try reflexivity.
  - by apply Hstale.
  - by apply Hstale.
Qed.

(** C1 as amended, on the round of Alice on ["cat"]: the guess ["c"] leaves
    the file alone, and after c, a, t the round returns with 30 points and
    one round in the file. *)
Lemma score_flushed_when_round_returns_witness :
  (round_ok (U := ascii_unicode) cat (init_round cat)
   ∧ valid_guess (U := ascii_unicode) (lit "c")
   ∧ str_in (lit "c") cat = true
   ∧ ∃ rs' σ',
       loop_body (U := ascii_unicode) cat (init_round cat) fresh_world (lit "c")
       = Continue rs' σ'
       ∧ score (player σ') = score (player fresh_world) + 10
       ∧ disk σ' = disk fresh_world)
  ∧ (play_loop (U := ascii_unicode) cat (init_round cat) fresh_world c_a_t
     = (Return true None, mkRound c_a_t [] 0,
        flush (add_round (add_score 30 fresh_world)), [])
     ∧ load_players (disk (flush (add_round (add_score 30 fresh_world))))
         !! alice
       = Some (stats 30 1)).
Proof.
  destruct (score_flushed_when_round_returns (U := ascii_unicode))
    as [Hstep Hret].
  split.
  - split_and!; [apply round_ok_init | done | done |].
    apply Hstep; [apply round_ok_init | done | done].
  - split; [reflexivity|].
    apply (Hret cat (init_round cat) (mkRound c_a_t [] 0) fresh_world
                (flush (add_round (add_score 30 fresh_world))) c_a_t []
                true None).
    reflexivity.
Defined.

(** C2 on ["cat"]: a board with every letter shown, and the guesses
    c, a, t from the start. *)
Lemma all_letters_guessed_wins_witness :
  (all_revealed cat (guessed_letters cat_full)
   ∧ ∃ σ',
       play_loop (U := ascii_unicode) cat cat_full fresh_world []
       = (Return true None, cat_full, σ', [])
       ∧ rounds (player σ') = rounds (player fresh_world) + 1
       ∧ score (player σ') = score (player fresh_world)
       ∧ disk σ' = update_player (player σ') (disk fresh_world)
       ∧ flushed σ')
  ∧ ∃ rs' σ' rest,
      play_game (U := ascii_unicode) 21 fresh_world c_a_t
      = (Return true None, rs', σ', rest)
      ∧ wrong_letters rs' = [] ∧ attempt rs' = 0
      ∧ rounds (player σ') = rounds (player fresh_world) + 1
      ∧ flushed σ'.
Proof.
  destruct (all_letters_guessed_wins (U := ascii_unicode)) as [Hhead Hrun].
  assert (Hall : all_revealed cat (guessed_letters cat_full))
    by (repeat constructor).
  split; [split; [exact Hall | by apply Hhead] |].
  apply Hrun.
  - intros line Hl. cases_of Hl.
    + exists 99%N. split; [reflexivity | by apply (bool_decide_unpack _)].
    + exists 97%N. split; [reflexivity | by apply (bool_decide_unpack _)].
    + exists 116%N. split; [reflexivity | by apply (bool_decide_unpack _)].
  - intros c Hc. cases_of Hc.
    + exists (lit "c"). split; [by apply (bool_decide_unpack _) | reflexivity].
    + exists (lit "a"). split; [by apply (bool_decide_unpack _) | reflexivity].
    + exists (lit "t"). split; [by apply (bool_decide_unpack _) | reflexivity].
Defined.


(** C4 with [attempt] at 7 and the word shown. *)
Lemma win_test_before_attempt_test_witness :
  attempt cat_full = 7
  ∧ all_revealed cat (guessed_letters cat_full)
  ∧ play_loop (U := ascii_unicode) cat cat_full fresh_world [lit "b"]
    = (Return true None, cat_full, flush (add_round fresh_world), [lit "b"])
  ∧ ∀ w, (play_loop (U := ascii_unicode) cat cat_full fresh_world
            [lit "b"]).1.1.1 ≠ Return false w.
Proof.
  assert (Hall : all_revealed cat (guessed_letters cat_full))
    by (repeat constructor).
  split_and!; [reflexivity | exact Hall | |];
    by apply (win_test_before_attempt_test (U := ascii_unicode)).
Defined.

(** C5 on ["apple"] with the guess ["p"], which shows two positions. *)
Lemma correct_guess_reveals_and_scores_witness :
  round_ok (U := ascii_unicode) apple (init_round apple)
  ∧ valid_guess (U := ascii_unicode) (lit "p")
  ∧ str_in (lit "p") apple = true
  ∧ ∃ rs' σ',
      loop_body (U := ascii_unicode) apple (init_round apple) fresh_world
        (lit "p")
      = Continue rs' σ'
      ∧ (∀ i l, apple !! i = Some l → [l] = lit "p" →
                guessed_letters rs' !! i = Some (lit "p"))
      ∧ (∀ i l, apple !! i = Some l → [l] ≠ lit "p" →
                guessed_letters rs' !! i
                = guessed_letters (init_round apple) !! i)
      ∧ length (guessed_letters rs') = length apple
      ∧ score (player σ') = score (player fresh_world) + 10
      ∧ rounds (player σ') = rounds (player fresh_world)
      ∧ attempt rs' = attempt (init_round apple)
      ∧ wrong_letters rs' = wrong_letters (init_round apple).
Proof.
  split_and!; [apply round_ok_init | done | done |].
  apply (correct_guess_reveals_and_scores (U := ascii_unicode));
    [apply round_ok_init | done | done].
Defined.

(** C6 on the guesses ["ab"], ["3"] and [""], and on the line [" 3 "]. *)
Lemma invalid_guess_rejected_witness :
  (¬ valid_guess (U := ascii_unicode) (lit "ab")
   ∧ loop_body (U := ascii_unicode) cat cat_c fresh_world (lit "ab")
     = Continue cat_c fresh_world)
  ∧ (¬ valid_guess (U := ascii_unicode) (lit "3")
     ∧ loop_body (U := ascii_unicode) cat cat_c fresh_world (lit "3")
       = Continue cat_c fresh_world)
  ∧ (¬ valid_guess (U := ascii_unicode) (lit "")
     ∧ loop_body (U := ascii_unicode) cat cat_c fresh_world (lit "")
       = Continue cat_c fresh_world)
  ∧ play_loop (U := ascii_unicode) cat cat_c fresh_world
      [lit " 3 "; lit "a"; lit "t"]
    = play_loop (U := ascii_unicode) cat cat_c fresh_world [lit "a"; lit "t"].
Proof.
  assert (Hab : ¬ valid_guess (U := ascii_unicode) (lit "ab"))
    by (by intros [? ?]).
  assert (H3 : ¬ valid_guess (U := ascii_unicode) (lit "3"))
    by (by intros [? ?]).
  assert (He : ¬ valid_guess (U := ascii_unicode) (lit ""))
    by (by intros [? ?]).
  split; [|split; [|split]].
  - split; [exact Hab|].
    by apply (invalid_guess_rejected (U := ascii_unicode)).
  - split; [exact H3|].
    by apply (invalid_guess_rejected (U := ascii_unicode)).
  - split; [exact He|].
    by apply (invalid_guess_rejected (U := ascii_unicode)).
  - by apply (proj2 (invalid_guess_rejected (U := ascii_unicode)
                       cat cat_c fresh_world (lit "3") H3)
                (lit " 3 ") [lit "a"; lit "t"]).
Defined.

(** C7 on ["dog"] with the wrong letter ["x"] guessed twice. *)
Lemma duplicate_wrong_guess_rejected_witness :
  (lit "x" ∈ wrong_letters dog_x
   ∧ loop_body (U := ascii_unicode) dog dog_x fresh_world (lit "x")
     = Continue dog_x fresh_world)
  ∧ ∃ rs1,
      loop_body (U := ascii_unicode) dog (init_round dog) fresh_world (lit "x")
      = Continue rs1 fresh_world
      ∧ attempt rs1 = attempt (init_round dog) + 1
      ∧ lit "x" ∈ wrong_letters rs1
      ∧ loop_body (U := ascii_unicode) dog rs1 fresh_world (lit "x")
        = Continue rs1 fresh_world.
Proof.
  assert (Hx : lit "x" ∈ wrong_letters dog_x)
    by (by apply (bool_decide_unpack _)).
  split.
  - split; [exact Hx|].
    by apply (proj1 (duplicate_wrong_guess_rejected (U := ascii_unicode)
                       dog dog_x fresh_world (lit "x"))).
  - apply (proj2 (duplicate_wrong_guess_rejected (U := ascii_unicode)
                    dog (init_round dog) fresh_world (lit "x")));
      [apply round_ok_init | done | done | done |].
    by intros ?%elem_of_nil.
Defined.

(** C9 for Alice with 10 points; Bob is another name. *)
Lemma update_player_idempotent_witness :
  lit "Bob" ≠ alice
  ∧ update_player (mkPlayer alice 10 0)
      (update_player (mkPlayer alice 10 0) (disk fresh_world))
    = update_player (mkPlayer alice 10 0) (disk fresh_world)
  ∧ load_players (update_player (mkPlayer alice 10 0) (disk fresh_world))
      !! alice
    = Some (stats 10 0)
  ∧ (∃ e, load_players (update_player (mkPlayer alice 10 0)
                          (disk fresh_world)) !! alice = Some e
          ∧ e !! lit "Score" = Some 10
          ∧ e !! lit "Rounds" = Some 0
          ∧ dom e = ({[lit "Score"; lit "Rounds"]} : gset str))
  ∧ load_players (update_player (mkPlayer alice 10 0) (disk fresh_world))
      !! lit "Bob"
    = load_players (disk fresh_world) !! lit "Bob".
Proof.
  assert (Hne : lit "Bob" ≠ alice) by done.
  destruct (update_player_idempotent (mkPlayer alice 10 0) (disk fresh_world))
    as (Hidem & Hown & Hfields & Hothers).
  split; [exact Hne|]. split; [exact Hidem|]. split; [exact Hown|].
  split; [exact Hfields|]. by apply Hothers.
Defined.

(** C10 on ["cat"] with ["c"] shown and guessed again. *)
Lemma revealed_letter_scores_again_witness :
  round_ok (U := ascii_unicode) cat cat_c
  ∧ isalpha (Unicode := ascii_unicode) 99%N = true
  ∧ 99%N ∈ cat
  ∧ (∀ i, cat !! i = Some 99%N → guessed_letters cat_c !! i = Some [99%N])
  ∧ loop_body (U := ascii_unicode) cat cat_c fresh_world [99%N]
    = Continue cat_c (add_score 10 fresh_world)
  ∧ score (player (add_score 10 fresh_world)) = score (player fresh_world) + 10.
Proof.
  assert (Hok : round_ok (U := ascii_unicode) cat cat_c).
  { split; simpl; try done.
    - change cat with [99%N; 97%N; 116%N].
      repeat (constructor; [first [by left | by right]|]). constructor.
    - by intros g ?%elem_of_nil.
    - constructor. }
  assert (Hin : 99%N ∈ cat) by (by apply (bool_decide_unpack _)).
  assert (Hrev : ∀ i, cat !! i = Some 99%N →
                      guessed_letters cat_c !! i = Some [99%N])
    by (intros [|[|[|i]]]; done).
  split; [exact Hok|]. split; [done|]. split; [exact Hin|].
  split; [exact Hrev|].
  by apply (proj1 (revealed_letter_scores_again (U := ascii_unicode))).
Defined.

(** * Further properties of the code *)

(** ** The store: registering, clearing, printing *)

(** X1: [create_player] registers the name: [player_exists] then answers
    [True] for it, and for every other name answers as before, with that
    name's entry untouched. *)
Theorem create_player_registers (name : str) (f : file) :
  player_exists name (create_player name f).2 = true
  ∧ ∀ other, other ≠ name →
      player_exists other (create_player name f).2 = player_exists other f
      ∧ load_players (create_player name f).2 !! other
        = load_players f !! other.
Proof.
  unfold player_exists, create_player. simpl. split.
  - apply bool_decide_eq_true_2. rewrite lookup_insert_eq. by eexists.
  - intros other Hne. by rewrite lookup_insert_ne.
Qed.

(** X2: [clear_player] forgets every player, whatever the file held and also
    when there was no file: the mapping read back is empty and no name
    exists.  [update_player] asks for no earlier entry: on the cleared file
    it brings back its player, alone. *)
Theorem clear_player_forgets (f : file) :
  load_players (clear_player f) = ∅
  ∧ (∀ name, player_exists name (clear_player f) = false)
  ∧ ∀ p, load_players (update_player p (clear_player f))
         = {[player_name p := stats (score p) (rounds p)]}
         ∧ player_exists (player_name p) (update_player p (clear_player f))
           = true.
Proof.
  unfold clear_player, player_exists, update_player. simpl. split_and!.
  - done.
  - intros name. apply bool_decide_eq_false_2. rewrite lookup_empty.
    by intros [? ?].
  - intros p. split; [done|].
    apply bool_decide_eq_true_2. rewrite lookup_insert_eq. by eexists.
Qed.

Lemma has_stats_stats (s r : Z) : has_stats (stats s r).
Proof. split; [rewrite stats_score | rewrite stats_rounds]; by eexists. Qed.

Lemma store_ok_update (p : Player) (f : file) :
  store_ok f → store_ok (update_player p f).
Proof.
  unfold store_ok, update_player. simpl. intros Hok.
  apply map_Forall_insert_2; [apply has_stats_stats | done].
Qed.

Lemma store_ok_create (name : str) (f : file) :
  store_ok f → store_ok (create_player name f).2.
Proof.
  unfold store_ok, create_player. simpl. intros Hok.
  apply map_Forall_insert_2; [apply has_stats_stats | done].
Qed.

Lemma store_ok_clear (f : file) : store_ok (clear_player f).
Proof. unfold store_ok, clear_player. simpl. apply map_Forall_empty. Qed.

(** X3: every entry the program writes has both fields: a missing file and a
    cleared file have no entry, and [create_player] and [update_player] keep
    a file in which every entry has its ["Score"] and its ["Rounds"]. *)
Theorem store_ok_kept :
  store_ok None
  ∧ (∀ f, store_ok (clear_player f))
  ∧ ∀ f, store_ok f →
         (∀ name, store_ok (create_player name f).2)
         ∧ (∀ p, store_ok (update_player p f)).
Proof.
  split_and!.
  - apply map_Forall_empty.
  - apply store_ok_clear.
  - intros f Hok. split; intros; [by apply store_ok_create|by apply store_ok_update].
Qed.

Lemma show_highscores_ui_ok (f : file) :
  store_ok f → show_highscores_ui f = None.
Proof.
  intros Hok. unfold show_highscores_ui. simpl. case_bool_decide; [done|].
  by rewrite bool_decide_eq_true_2.
Qed.


(** ** The round: what a run does to the player and the file *)

Section RunFacts.
Context {U : Unicode}.

Lemma loop_head_Some (word : str) (rs rs' : round) (σ σ' : world)
    (r : result) :
  loop_head word rs σ = Some (r, rs', σ') →
  rs' = rs
  ∧ ((r = Return true None
      ∧ guessed_word word (guessed_letters rs) = true
      ∧ σ' = flush (add_round σ))
     ∨ (r = Return false (Some word)
        ∧ guessed_word word (guessed_letters rs) = false
        ∧ attempt rs = 7
        ∧ σ' = flush σ)).
Proof.
  unfold loop_head, hangman_stage. destruct (guessed_word _ _).
  - intros [= <- <- <-]. auto.
  - case_bool_decide as Ha; [|done].
    rewrite bool_decide_eq_true_2 by lia. intros [= <- <- <-]. auto 10.
Qed.

(** The three things a pass through the body does at a state that satisfies
    the invariant: reject the guess, take it as correct, take it as wrong. *)
Lemma loop_body_cases (word : str) (rs : round) (σ : world) (guess : str) :
  round_ok word rs → loop_head word rs σ = None →
  loop_body word rs σ guess = Continue rs σ
  ∨ (∃ c, guess = [c] ∧ isalpha c = true ∧ c ∈ word
          ∧ loop_body word rs σ guess
            = Continue (mkRound (mask word [c] (guessed_letters rs))
                                (wrong_letters rs) (attempt rs))
                       (add_score 10 σ))
  ∨ (∃ c, guess = [c] ∧ isalpha c = true ∧ (c ∉ word)
          ∧ ([c] ∉ wrong_letters rs)
          ∧ loop_body word rs σ guess
            = Continue (mkRound (guessed_letters rs)
                                (wrong_letters rs ++ [[c]]) (attempt rs + 1))
                       σ).
Proof.
  intros Hok [_ Hne]%loop_head_None.
  destruct (decide (guess ∈ wrong_letters rs)) as [Hdup|Hnew].
  { left. by apply loop_body_duplicate. }
  destruct (decide (valid_guess guess)) as [Hv|Hbad].
  2:{ left. by apply loop_body_invalid. }
  apply valid_guess_inv in Hv as (c & -> & Hc).
  pose proof (round_ok_length _ _ Hok) as Hlen.
  pose proof (ok_attempt _ _ Hok) as Ha. pose proof (ok_bound _ _ Hok) as Hb.
  destruct (decide (c ∈ word)) as [Hin|Hout].
  - right. left. exists c. split_and!; try done. by apply loop_body_correct.
  - right. right. exists c. split_and!; try done.
    apply loop_body_wrong; try done. lia.
Qed.

Lemma mask_agree (word guess : str) (gl : list str) :
  length gl = length word →
  cells_agree word gl → cells_agree word (mask word guess gl).
Proof.
  intros Hlen Hag i j l Hi Hj.
  destruct (lookup_lt_is_Some_2 gl i) as [gi Hgi].
  { rewrite Hlen. by eapply lookup_lt_Some. }
  destruct (lookup_lt_is_Some_2 gl j) as [gj Hgj].
  { rewrite Hlen. by eapply lookup_lt_Some. }
  rewrite (lookup_mask _ _ _ _ _ _ Hi Hgi), (lookup_mask _ _ _ _ _ _ Hj Hgj).
  pose proof (Hag i j l Hi Hj) as Heq. rewrite Hgi, Hgj in Heq.
  by injection Heq as ->.
Qed.

Lemma round_inv_init (word : str) : round_inv word (init_round word).
Proof.
  split_and!; [apply round_ok_init| |done].
  intros i j l Hi%lookup_lt_Some Hj%lookup_lt_Some. simpl.
  by rewrite !lookup_replicate_2.
Qed.

Lemma round_inv_step (word : str) (rs rs' : round) (σ σ' : world)
    (guess : str) :
  round_inv word rs → loop_head word rs σ = None →
  loop_body word rs σ guess = Continue rs' σ' →
  round_inv word rs'.
Proof.
  intros (Hok & Hag & H7) Hh Hb.
  destruct (round_ok_step word rs σ guess Hok Hh) as (rs1 & σ1 & Hb1 & Hok1).
  rewrite Hb in Hb1. injection Hb1 as <- <-.
  split; [done|].
  pose proof (proj1 (loop_head_None _ _ _) Hh) as [Hg Hne].
  destruct (loop_body_cases word rs σ guess Hok Hh)
    as [Hc|[(c & -> & _ & _ & Hc)|(c & -> & _ & _ & _ & Hc)]];
    rewrite Hb in Hc; injection Hc as -> ->; simpl; try done.
  split; [|done]. apply mask_agree; [by apply round_ok_length | done].
Qed.

Lemma reachable_inv (word : str) (rs : round) :
  reachable word rs → round_inv word rs.
Proof.
  induction 1 as [|rs rs' σ σ' guess _ IH Hh Hb]; [apply round_inv_init|].
  by eapply round_inv_step.
Qed.

Lemma loop_body_effect (word : str) (rs : round) (σ : world) (guess : str) :
  match loop_body word rs σ guess with
  | Continue rs' σ' => σ' = σ ∨ σ' = add_score 10 σ
  | Exit r rs' σ' => r = Raise IndexError ∧ σ' = σ
  end.
Proof.
  unfold loop_body. destruct (list_in _ _); [auto|].
  destruct (negb _ || negb _); [auto|].
  destruct (str_in _ _).
  - destruct (reveal _ _ _ _); auto.
  - destruct (hangman_stage _); auto.
Qed.

(** What a run leaves: the player with [10 * n] points more, [n] at most the
    number of lines read, and one round more after a win; the file written
    once when the function returns and not at all when it raises. *)
Lemma play_loop_summary (word : str) (lines : list str) :
  ∀ (rs rs' : round) (σ σ' : world) (r : result) (rest : list str),
    play_loop word rs σ lines = (r, rs', σ', rest) →
    ∃ n : nat,
      (n + length rest ≤ length lines)%nat
      ∧ player σ'
        = mkPlayer (player_name (player σ))
                   (score (player σ) + 10 * Z.of_nat n)
                   (rounds (player σ) + (if is_won r then 1 else 0))
      ∧ disk σ'
        = (if is_return r then update_player (player σ') (disk σ)
           else disk σ)
      ∧ (r = Raise EOFError → rest = []).
Proof.
  induction lines as [|line lines IH]; intros rs rs' σ σ' r rest;
    rewrite play_loop_unfold;
    destruct (loop_head word rs σ) as [[[r0 rs0] σ0]|] eqn:Hh.
  - intros [= -> -> -> <-].
    apply loop_head_Some in Hh as [_ [(-> & _ & ->)|(-> & _ & _ & ->)]];
      exists 0%nat; destruct σ as [[nm sc rd] d]; simpl;
      split_and!; try done; f_equal; lia.
  - intros [= <- <- <- <-]. exists 0%nat. destruct σ as [[nm sc rd] d]. simpl.
    split_and!; try done. f_equal; lia.
  - intros [= -> -> -> <-].
    apply loop_head_Some in Hh as [_ [(-> & _ & ->)|(-> & _ & _ & ->)]];
      exists 0%nat; destruct σ as [[nm sc rd] d]; simpl;
      split_and!; try done; try lia; f_equal; lia.
  - pose proof (loop_body_effect word rs σ (strip line)) as Heff.
    destruct (loop_body word rs σ (strip line)) as [rs1 σ1|r1 rs1 σ1].
    + intros (n & Hn & Hp & Hd & He)%IH. destruct Heff as [-> | ->].
      * exists n. simpl. split_and!; try done. lia.
      * exists (S n). simpl in *. split_and!; try done; [lia|].
        rewrite Hp. f_equal. lia.
    + destruct Heff as [-> ->]. intros [= <- <- <- <-]. exists 0%nat.
      destruct σ as [[nm sc rd] d]. simpl.
      split_and!; try done; [lia|]. f_equal; lia.
Qed.

(** How a run from a state that satisfies the invariant ends, and with which
    locals. *)
Lemma play_loop_final (word : str) (lines : list str) :
  ∀ (rs rs' : round) (σ σ' : world) (r : result) (rest : list str),
    round_inv word rs →
    play_loop word rs σ lines = (r, rs', σ', rest) →
    round_inv word rs'
    ∧ ((r = Return true None
        ∧ guessed_word word (guessed_letters rs') = true)
       ∨ (r = Return false (Some word)
          ∧ guessed_word word (guessed_letters rs') = false
          ∧ attempt rs' = 7)
       ∨ (r = Raise EOFError ∧ rest = []
          ∧ guessed_word word (guessed_letters rs') = false
          ∧ attempt rs' ≠ 7)).
Proof.
  induction lines as [|line lines IH]; intros rs rs' σ σ' r rest Hinv;
    rewrite play_loop_unfold;
    destruct (loop_head word rs σ) as [[[r0 rs0] σ0]|] eqn:Hh.
  - intros [= -> -> -> <-].
    apply loop_head_Some in Hh as [-> [(-> & ? & _)|(-> & ? & ? & _)]]; auto 10.
  - intros [= <- <- <- <-]. apply loop_head_None in Hh as [? ?]. auto 10.
  - intros [= -> -> -> <-].
    apply loop_head_Some in Hh as [-> [(-> & ? & _)|(-> & ? & ? & _)]]; auto 10.
  - destruct (round_ok_step word rs σ (strip line) (proj1 Hinv) Hh)
      as (rs1 & σ1 & Hb & _).
    rewrite Hb. apply IH. by eapply round_inv_step.
Qed.

End RunFacts.

Section StripFacts.
Context {U : Unicode}.

Lemma lstrip_spaces_app (pre s : str) :
  Forall (λ c, isspace c = true) pre → lstrip (pre ++ s) = lstrip s.
Proof. induction 1 as [|c pre Hc _ IH]; [done|]. simpl. by rewrite Hc. Qed.

Lemma lstrip_nil_spaces (s : str) :
  lstrip s = [] → Forall (λ c, isspace c = true) s.
Proof.
  induction s as [|c s IH]; [constructor|]. simpl.
  destruct (isspace c) eqn:Hc; [|done]. intros Hs. constructor; auto.
Qed.

Lemma lstrip_app_keep (s post : str) :
  lstrip s ≠ [] → lstrip (s ++ post) = lstrip s ++ post.
Proof.
  induction s as [|c s IH]; [done|]. simpl. by destruct (isspace c).
Qed.

Lemma rstrip_app_spaces (s post : str) :
  Forall (λ c, isspace c = true) post → rstrip (s ++ post) = rstrip s.
Proof.
  intros Hpost. unfold rstrip. rewrite reverse_app, lstrip_spaces_app; [done|].
  by apply Forall_reverse.
Qed.

Lemma strip_padded (pre line post : str) :
  Forall (λ c, isspace c = true) pre →
  Forall (λ c, isspace c = true) post →
  strip (pre ++ line ++ post) = strip line.
Proof.
  intros Hpre Hpost. unfold strip. rewrite lstrip_spaces_app by done.
  destruct (decide (lstrip line = [])) as [Hnil|Hne].
  - rewrite lstrip_spaces_app by (by apply lstrip_nil_spaces).
    rewrite Hnil. clear Hpre. induction Hpost as [|c post Hc _ IH]; [done|].
    simpl. by rewrite Hc.
  - rewrite lstrip_app_keep by done. by apply rstrip_app_spaces.
Qed.

End StripFacts.

Section RoundExtras.
Context {U : Unicode}.

(** X5: a round ends in one of three ways only: [(True, None)],
    [(False, word)] with the word of the round, or [EOFError] when every
    line of the input has been read.  It never raises [IndexError], neither
    at [stage[attempt]] nor at [guessed_letters[i]]. *)
Theorem play_game_outcomes (rnd : nat) (σ : world) (lines : list str) :
  ∃ r rs' σ' rest,
    play_game rnd σ lines = (r, rs', σ', rest)
    ∧ (r = Return true None
       ∨ r = Return false (Some (get_random_word rnd))
       ∨ (r = Raise EOFError ∧ rest = [])).
Proof.
  unfold play_game. set (word := get_random_word rnd).
  destruct (play_loop word (init_round word) σ lines)
    as [[[r rs'] σ'] rest] eqn:Hrun.
  exists r, rs', σ', rest. split; [done|].
  destruct (play_loop_final word lines _ _ _ _ _ _ (round_inv_init word) Hrun)
    as [_ [[-> _]|[(-> & _ & _)|(-> & -> & _)]]]; auto.
Qed.

Lemma loop_body_pays (word : str) (rs : round) (σ : world) (guess : str) :
  round_ok word rs → loop_head word rs σ = None →
  ∃ rs',
    round_ok word rs'
    ∧ loop_body word rs σ guess
      = Continue rs' (if correct_guess word guess then add_score 10 σ else σ).
Proof.
  intros Hok Hh.
  destruct (round_ok_step word rs σ guess Hok Hh) as (rs1 & σ1 & Hb & Hok1).
  exists rs1. split; [done|]. rewrite Hb. f_equal.
  destruct (loop_body_cases word rs σ guess Hok Hh)
    as [Hc|[(c & -> & Ha & Hin & Hc)|(c & -> & Ha & Hout & _ & Hc)]];
    rewrite Hb in Hc; injection Hc as _ ->.
  - destruct (correct_guess word guess) eqn:Hcg; [|done]. exfalso.
    unfold correct_guess in Hcg.
    apply andb_true_iff in Hcg as [[Hl Hal]%andb_true_iff Hin].
    apply Nat.eqb_eq in Hl.
    destruct (proj1 (valid_guess_inv guess) (conj Hl Hal)) as (c & -> & Hc).
    apply str_in_singleton in Hin.
    rewrite loop_body_correct in Hb; try done.
    + injection Hb as _ Hσ. destruct σ as [[nm sc rd] d].
      unfold add_score in Hσ. simpl in Hσ. injection Hσ as Hσ. lia.
    + by eapply round_ok_not_wrong.
    + by apply round_ok_length.
  - unfold correct_guess. simpl. rewrite Ha. simpl.
    apply str_in_singleton in Hin. by rewrite Hin.
  - unfold correct_guess. simpl. rewrite Ha. simpl.
    apply str_in_singleton_false in Hout. by rewrite Hout.
Qed.

(** The lines a run reads and what it pays for them. *)
Lemma play_loop_pays (word : str) (lines : list str) :
  ∀ (rs rs' : round) (σ σ' : world) (r : result) (rest : list str),
    round_ok word rs →
    play_loop word rs σ lines = (r, rs', σ', rest) →
    ∃ read,
      lines = read ++ rest
      ∧ player σ'
        = mkPlayer (player_name (player σ))
            (score (player σ) + 10 * Z.of_nat (correct_guesses word read))
            (rounds (player σ) + (if is_won r then 1 else 0)).
Proof.
  induction lines as [|line lines IH]; intros rs rs' σ σ' r rest Hok;
    rewrite play_loop_unfold;
    destruct (loop_head word rs σ) as [[[r0 rs0] σ0]|] eqn:Hh.
  - intros [= -> -> -> <-]. exists [].
    apply loop_head_Some in Hh as [_ [(-> & _ & ->)|(-> & _ & _ & ->)]];
      destruct σ as [[nm sc rd] d]; simpl; split; try done; f_equal; lia.
  - intros [= <- <- <- <-]. exists []. destruct σ as [[nm sc rd] d]. simpl.
    split; [done|]. f_equal; lia.
  - intros [= -> -> -> <-]. exists [].
    apply loop_head_Some in Hh as [_ [(-> & _ & ->)|(-> & _ & _ & ->)]];
      destruct σ as [[nm sc rd] d]; simpl; split; try done; f_equal; lia.
  - destruct (loop_body_pays word rs σ (strip line) Hok Hh)
      as (rs1 & Hok1 & ->).
    intros (read & -> & Hp)%IH; [|done]. exists (line :: read).
    split; [done|]. rewrite Hp. cbn [correct_guesses].
    destruct (correct_guess word (strip line)); simpl; f_equal; lia.
Qed.

(** X6: what a round does to the player object: the name stays; the score
    grows by 10 for each line read whose guess, after [strip], is one
    alphabetic character that occurs in the word, and by nothing for any
    other line; and the rounds grow by one when the round is won and stay
    otherwise. *)
Theorem play_game_accounting (rnd : nat) (σ σ' : world) (lines rest : list str)
    (r : result) (rs' : round) :
  play_game rnd σ lines = (r, rs', σ', rest) →
  ∃ read,
    lines = read ++ rest
    ∧ player_name (player σ') = player_name (player σ)
    ∧ score (player σ')
      = score (player σ)
        + 10 * Z.of_nat (correct_guesses (get_random_word rnd) read)
    ∧ rounds (player σ')
      = rounds (player σ) + (if is_won r then 1 else 0).
Proof.
  intros (read & Hread & Hp)%play_loop_pays; [|apply round_ok_init].
  exists read. rewrite Hp. by split_and!.
Qed.

(** X7: what a round does to the file: nothing when it ends with an
    exception, and one [update_player] of the player as it is at the end when
    it returns; in both cases the entry of every other name is as before. *)
Theorem play_game_file (rnd : nat) (σ σ' : world) (lines rest : list str)
    (r : result) (rs' : round) :
  play_game rnd σ lines = (r, rs', σ', rest) →
  disk σ'
  = (if is_return r then update_player (player σ') (disk σ) else disk σ)
  ∧ ∀ name, name ≠ player_name (player σ) →
            load_players (disk σ') !! name = load_players (disk σ) !! name.
Proof.
  intros (n & _ & Hp & Hd & _)%play_loop_summary.
  split; [done|]. intros name Hne. rewrite Hd.
  destruct (is_return r); [|done].
  unfold update_player. simpl. rewrite Hp. simpl. by rewrite lookup_insert_ne.
Qed.

Lemma won_shows_word (word : str) (rs : round) :
  underscore ∉ ((λ l, [l]) <$> word) →
  round_inv word rs →
  guessed_word word (guessed_letters rs) = true →
  guessed_letters rs = (λ l, [l]) <$> word.
Proof.
  intros Hus (Hok & Hag & _) Hg.
  pose proof (round_ok_length _ _ Hok) as Hlen.
  apply list_eq. intros i. rewrite list_lookup_fmap.
  destruct (word !! i) as [l|] eqn:Hl; simpl.
  - assert (Hin : [l] ∈ guessed_letters rs).
    { rewrite guessed_word_spec in Hg. apply Hg.
      apply list_elem_of_lookup. eauto. }
    apply list_elem_of_lookup in Hin as [j Hj].
    destruct (lookup_lt_is_Some_2 word j) as [l' Hl'].
    { rewrite <- Hlen. by eapply lookup_lt_Some. }
    destruct (Forall2_lookup_lr _ _ _ _ _ _ (ok_cells _ _ Hok) Hl' Hj)
      as [Hcell|Hcell].
    + injection Hcell as ->. by rewrite (Hag i j l' Hl Hl').
    + exfalso. apply Hus. rewrite <- Hcell.
      apply (list_elem_of_fmap_2 (λ l, [l])), list_elem_of_lookup. eauto.
  - apply lookup_ge_None. rewrite Hlen. by apply lookup_ge_None.
Qed.

Lemma not_guessed_hides (word : str) (rs : round) :
  round_ok word rs →
  guessed_word word (guessed_letters rs) = false →
  underscore ∈ guessed_letters rs.
Proof.
  intros Hok Hg.
  assert (Hex : ¬ ∀ c, c ∈ word → [c] ∈ guessed_letters rs).
  { rewrite <- guessed_word_spec. by rewrite Hg. }
  destruct (decide (underscore ∈ guessed_letters rs)) as [|Hno]; [done|].
  exfalso. apply Hex. intros c [i Hi]%list_elem_of_lookup.
  destruct (lookup_lt_is_Some_2 (guessed_letters rs) i) as [g Hgi].
  { rewrite (round_ok_length _ _ Hok). by eapply lookup_lt_Some. }
  destruct (Forall2_lookup_lr _ _ _ _ _ _ (ok_cells _ _ Hok) Hi Hgi)
    as [-> | ->].
  - apply list_elem_of_lookup. eauto.
  - exfalso. apply Hno, list_elem_of_lookup. eauto.
Qed.

(** X8: the board at the end of a round.  After a win every position shows
    its letter and fewer than seven attempts were used; after a loss there
    are exactly seven wrong letters, all different, [attempt] is 7 and some
    position is still hidden. *)
Theorem play_game_final_board (rnd : nat) (σ σ' : world)
    (lines rest : list str) (r : result) (rs' : round) :
  play_game rnd σ lines = (r, rs', σ', rest) →
  (r = Return true None →
   guessed_letters rs' = (λ l, [l]) <$> get_random_word rnd
   ∧ 0 ≤ attempt rs' < 7
   ∧ Z.of_nat (length (wrong_letters rs')) = attempt rs')
  ∧ (r = Return false (Some (get_random_word rnd)) →
     attempt rs' = 7
     ∧ length (wrong_letters rs') = 7%nat
     ∧ NoDup (wrong_letters rs')
     ∧ underscore ∈ guessed_letters rs').
Proof.
  unfold play_game. pose proof (get_random_word_in rnd) as Hw.
  set (word := get_random_word rnd) in *. intros Hrun.
  destruct (play_loop_final word lines _ _ _ _ _ _ (round_inv_init word) Hrun)
    as [Hinv Hend].
  pose proof Hinv as (Hok & _ & H7).
  pose proof (ok_attempt _ _ Hok) as Ha. pose proof (ok_bound _ _ Hok) as Hb.
  split.
  - intros ->. destruct Hend as [[_ Hg]|[(? & _)|(? & _)]]; try done.
    split_and!; try lia.
    + apply won_shows_word; try done.
      apply lowercase_not_underscore. intros c Hc. by eapply words_lowercase.
    + destruct (decide (attempt rs' = 7)) as [H'|]; [|lia].
      apply H7 in H'. congruence.
  - intros ->. destruct Hend as [[? _]|[(_ & Hg & H')|(? & _)]]; try done.
    split_and!; try done; [lia | apply (ok_nodup _ _ Hok) |].
    by apply (not_guessed_hides word).
Qed.

(** X9: what holds of the locals whenever the loop is at its head:
    [attempt] is the number of wrong letters and at most 7; the wrong letters
    are all different, none occurs in the word and none is shown on the
    board; the board is as long as the word; and the word is never both
    guessed and out of attempts, so the order of the two exit tests decides
    nothing. *)
Theorem reachable_invariants (word : str) (rs : round) :
  reachable word rs →
  attempt rs = Z.of_nat (length (wrong_letters rs))
  ∧ attempt rs ≤ 7
  ∧ NoDup (wrong_letters rs)
  ∧ (∀ g, g ∈ wrong_letters rs →
          str_in g word = false ∧ g ∉ guessed_letters rs)
  ∧ length (guessed_letters rs) = length word
  ∧ ¬ (guessed_word word (guessed_letters rs) = true ∧ attempt rs = 7).
Proof.
  intros (Hok & _ & H7)%reachable_inv.
  split_and!.
  - apply (ok_attempt _ _ Hok).
  - apply (ok_bound _ _ Hok).
  - apply (ok_nodup _ _ Hok).
  - intros g Hg. destruct (ok_wrong _ _ Hok g Hg) as (c & -> & Hc & Hout).
    split; [by apply str_in_singleton_false|].
    intros [i Hi]%list_elem_of_lookup.
    destruct (lookup_lt_is_Some_2 word i) as [l Hl].
    { rewrite <- (round_ok_length _ _ Hok). by eapply lookup_lt_Some. }
    destruct (Forall2_lookup_lr _ _ _ _ _ _ (ok_cells _ _ Hok) Hl Hi)
      as [Hcell|Hcell].
    + injection Hcell as ->. apply Hout, list_elem_of_lookup. eauto.
    + injection Hcell as ->. by rewrite isalpha_ascii in Hc.
  - by apply round_ok_length.
  - intros [Hg Ha]. apply H7 in Ha. congruence.
Qed.

(** X10: the guess is not brought to lower case: in a round on a word of the
    list a capital letter not guessed before is an alphabetic character that
    is not in the word, so it is taken as a wrong guess and costs an
    attempt, also when the small letter is in the word. *)
Theorem capital_guess_is_wrong (rnd : nat) (rs : round) (σ : world)
    (c : char) :
  round_ok (get_random_word rnd) rs →
  loop_head (get_random_word rnd) rs σ = None →
  uppercase c = true →
  [c] ∉ wrong_letters rs →
  loop_body (get_random_word rnd) rs σ [c]
  = Continue (mkRound (guessed_letters rs) (wrong_letters rs ++ [[c]])
                      (attempt rs + 1))
             σ.
Proof.
  intros Hok [_ Hne]%loop_head_None Hup Hnew.
  pose proof (ok_attempt _ _ Hok) as Ha. pose proof (ok_bound _ _ Hok) as Hb.
  unfold uppercase in Hup. apply andb_true_iff in Hup as [Hlo Hhi].
  apply N.leb_le in Hlo, Hhi.
  apply loop_body_wrong; try done; [| |lia].
  - rewrite isalpha_ascii by lia. unfold ascii_isalpha.
    apply orb_true_iff. left. apply andb_true_iff. by rewrite !N.leb_le.
  - intros Hin. pose proof (words_lowercase _ _ (get_random_word_in rnd) Hin)
      as Hl.
    unfold lowercase in Hl. apply andb_true_iff in Hl as [Hl _].
    apply N.leb_le in Hl. lia.
Qed.

(** X11: white space around a guess is not seen: when the loop reads a line
    with white space before and after it, the round goes on as it does on
    the line alone. *)
Theorem padded_guess (word : str) (rs : round) (σ : world)
    (pre line post : str) (rest : list str) :
  Forall (λ c, isspace c = true) pre →
  Forall (λ c, isspace c = true) post →
  loop_head word rs σ = None →
  strip (pre ++ line ++ post) = strip line
  ∧ play_loop word rs σ ((pre ++ line ++ post) :: rest)
    = play_loop word rs σ (line :: rest).
Proof.
  intros Hpre Hpost Hh.
  pose proof (strip_padded pre line post Hpre Hpost) as Hs.
  split; [done|].
  rewrite (play_loop_unfold word rs σ (_ :: rest)).
  rewrite (play_loop_unfold word rs σ (line :: rest)). by rewrite Hh, Hs.
Qed.

End RoundExtras.

(** ** The interface: making a player *)

(** X12: the player [create_player_ui] makes has a name of at most 15
    characters that was not in the file, and starts at score 0 and rounds 0;
    the file gains that one entry and keeps every entry it had, so the
    overwriting of [create_player] is never reached from here.  It can only
    fail with [EOFError], when every line was too long or taken, and the
    file is then as it was. *)
Theorem create_player_ui_fresh (f : file) (lines : list str) :
  (∀ p f' rest,
     create_player_ui f lines = (inr p, f', rest) →
     (length (player_name p) ≤ 15)%nat
     ∧ player_exists (player_name p) f = false
     ∧ score p = 0 ∧ rounds p = 0
     ∧ load_players f' = <[player_name p := stats 0 0]> (load_players f)
     ∧ ∀ name e, load_players f !! name = Some e →
                 load_players f' !! name = Some e)
  ∧ (∀ e f' rest,
       create_player_ui f lines = (inl e, f', rest) →
       e = EOFError ∧ f' = f ∧ rest = []
       ∧ Forall (λ name, (15 < length name)%nat
                         ∨ player_exists name f = true) lines).
Proof.
  induction lines as [|name lines [IHr IHl]]; simpl.
  - split; [done|]. intros e f' rest [= <- <- <-]. by split_and!.
  - case_bool_decide as Hlen.
    { split; [done|]. intros e f' rest Hrun.
      destruct (IHl e f' rest Hrun) as (? & ? & ? & ?).
      split_and!; try done. constructor; auto. }
    destruct (player_exists name f) eqn:Hex.
    { split; [done|]. intros e f' rest Hrun.
      destruct (IHl e f' rest Hrun) as (? & ? & ? & ?).
      split_and!; try done. constructor; auto. }
    split; [|done]. intros p f' rest [= <- <- <-]. simpl.
    split_and!; try done; [lia|].
    intros other e Hother. rewrite lookup_insert_ne; [done|].
    intros <-. unfold player_exists in Hex.
    apply bool_decide_eq_false_1 in Hex. apply Hex. by eexists.
Qed.

(** X13: which name [create_player_ui] takes: the first line that has at most
    15 characters and is not in the file, the lines before it being skipped;
    the line is taken as typed, without stripping, and the empty line is a
    name like any other. *)
Theorem create_player_ui_first_free (f : file) (skipped : list str)
    (name : str) (rest : list str) :
  Forall (λ line, (15 < length line)%nat ∨ player_exists line f = true)
         skipped →
  (length name ≤ 15)%nat →
  player_exists name f = false →
  create_player_ui f (skipped ++ name :: rest)
  = (inr (mkPlayer name 0 0),
     Some (<[name := stats 0 0]> (load_players f)), rest).
Proof.
  intros Hsk Hlen Hfree. induction Hsk as [|line skipped Hline _ IH]; simpl.
  - rewrite bool_decide_eq_false_2 by lia. by rewrite Hfree.
  - case_bool_decide; [done|]. destruct Hline as [?|Hex]; [lia|].
    by rewrite Hex.
Qed.

(** ** The interface: sessions and the menu *)

Section Session.
Context {U : Unicode} {C : Casing}.

Lemma play_game_ends (rnd : nat) (σ : world) (lines : list str) :
  ∃ r rs' σ' rest,
    play_game rnd σ lines = (r, rs', σ', rest)
    ∧ (r = Return true None
       ∨ r = Return false (Some (get_random_word rnd))
       ∨ (r = Raise EOFError ∧ rest = [])).
Proof.
  unfold play_game. set (word := get_random_word rnd).
  destruct (play_loop word (init_round word) σ lines)
    as [[[r rs'] σ'] rest] eqn:Hrun.
  exists r, rs', σ', rest. split; [done|].
  destruct (play_loop_final word lines _ _ _ _ _ _ (round_inv_init word) Hrun)
    as [_ [[-> _]|[(-> & _ & _)|(-> & -> & _)]]]; auto.
Qed.

Lemma play_game_store_ok (rnd : nat) (σ σ' : world) (lines rest : list str)
    (r : result) (rs' : round) :
  play_game rnd σ lines = (r, rs', σ', rest) →
  (length rest ≤ length lines)%nat
  ∧ (store_ok (disk σ) → store_ok (disk σ')).
Proof.
  intros (n & Hn & _ & Hd & _)%play_loop_summary. split; [lia|].
  intros Hok. rewrite Hd. destruct (is_return r); [|done].
  by apply store_ok_update.
Qed.

Lemma start_game_loop_safe (fuel : nat) (draws : nat → nat) :
  ∀ (k : nat) (σ : world) (lines : list str),
    (length lines < fuel)%nat →
    ∃ how σ' rest k',
      start_game_loop fuel draws k σ lines = Some (how, σ', rest, k')
      ∧ (how = Returned ∨ how = Raised (Base EOFError))
      ∧ (length rest ≤ length lines)%nat
      ∧ (store_ok (disk σ) → store_ok (disk σ')).
Proof.
  induction fuel as [|fuel IH]; intros k σ lines Hfuel; [lia|].
  cbn [start_game_loop].
  destruct (play_game_ends (draws k) σ lines)
    as (r & rs1 & σ1 & rest1 & Hrun & Hr).
  rewrite Hrun. apply play_game_store_ok in Hrun as [Hlen Hst].
  destruct Hr as [-> | [-> | [-> ->]]].
  - destruct rest1 as [|again rest1].
    + eexists _, _, _, _. split; [done|]. split_and!; auto; simpl in *; lia.
    + simpl in Hlen. case_bool_decide.
      * destruct (IH (S k) σ1 rest1) as (how & σ' & rest & k' & -> & ? & ? & ?);
          [lia|].
        eexists _, _, _, _. split; [done|]. split_and!; auto; simpl in *; lia.
      * eexists _, _, _, _. split; [done|]. split_and!; auto; simpl in *; lia.
  - eexists _, _, _, _. split; [done|]. split_and!; auto.
  - eexists _, _, _, _. split; [done|]. split_and!; auto.
Qed.

Lemma create_player_ui_store_ok (f : file) (lines : list str) :
  ∃ out f' rest,
    create_player_ui f lines = (out, f', rest)
    ∧ (length rest ≤ length lines)%nat
    ∧ (store_ok f → store_ok f')
    ∧ (∀ e, out = inl e → e = EOFError).
Proof.
  induction lines as [|name lines (out & f' & rest & IH & ? & ? & ?)]; simpl.
  - eexists _, _, _. split; [done|]. split_and!; auto. by intros e [= <-].
  - repeat case_match.
    + eexists _, _, _. split; [done|]. split_and!; auto; simpl; lia.
    + eexists _, _, _. split; [done|]. split_and!; auto; simpl; lia.
    + eexists _, _, _. split; [done|]. split_and!; [simpl; lia| |done].
      intros Hok. by apply (store_ok_create name).
Qed.

Lemma start_game_ui_safe (fuel : nat) (draws : nat → nat) (k : nat)
    (f : file) (lines : list str) :
  (length lines < fuel)%nat →
  ∃ how f' rest k',
    start_game_ui fuel draws k f lines = Some (how, f', rest, k')
    ∧ (how = Returned ∨ how = Raised (Base EOFError))
    ∧ (length rest ≤ length lines)%nat
    ∧ (store_ok f → store_ok f').
Proof.
  intros Hfuel. unfold start_game_ui.
  destruct (create_player_ui_store_ok f lines)
    as (out & f1 & rest1 & -> & Hlen & Hst & He).
  destruct out as [e|p].
  - rewrite (He e eq_refl). eexists _, _, _, _. split; [done|].
    split_and!; auto.
  - destruct (start_game_loop_safe fuel draws k (mkWorld p f1) rest1)
      as (how & σ' & rest & k' & -> & ? & ? & Hst'); [lia|].
    eexists _, _, _, _. split; [done|]. split_and!; [auto|lia|].
    intros Hok. apply Hst'. simpl. auto.
Qed.

(** More fuel changes nothing once there is enough. *)
Lemma start_game_loop_fuel (fuel : nat) (draws : nat → nat) :
  ∀ (k : nat) (σ : world) (lines : list str) out,
    start_game_loop fuel draws k σ lines = Some out →
    start_game_loop (S fuel) draws k σ lines = Some out.
Proof.
  induction fuel as [|fuel IH]; intros k σ lines out; [done|].
  intros Hrun. rewrite <- Hrun.
  change (start_game_loop (S (S fuel)) draws k σ lines)
    with (match play_game (draws k) σ lines with
          | (Return true _, _, σ', rest) =>
              match rest with
              | [] => Some (Raised (Base EOFError), σ', [], S k)
              | again :: rest' =>
                  if bool_decide (lower again = lit "y")
                  then start_game_loop (S fuel) draws (S k) σ' rest'
                  else Some (Returned, σ', rest', S k)
              end
          | (Return false (Some _), _, σ', rest) =>
              Some (Returned, σ', rest, S k)
          | (Return false None, _, σ', rest) =>
              Some (Raised TypeError, σ', rest, S k)
          | (Raise e, _, σ', rest) => Some (Raised (Base e), σ', rest, S k)
          end).
  cbn [start_game_loop] in Hrun |- *.
  destruct (play_game (draws k) σ lines) as [[[[[] w|e] rs1] σ1] rest1];
    try done.
  destruct rest1 as [|again rest1]; [done|].
  case_bool_decide; [|done]. rewrite Hrun. by apply IH.
Qed.

Lemma start_game_loop_others (fuel : nat) (draws : nat → nat) :
  ∀ (k k' : nat) (σ σ' : world) (lines rest : list str) (how : ended),
    start_game_loop fuel draws k σ lines = Some (how, σ', rest, k') →
    player_name (player σ') = player_name (player σ)
    ∧ ∀ name, name ≠ player_name (player σ) →
              load_players (disk σ') !! name = load_players (disk σ) !! name.
Proof.
  induction fuel as [|fuel IH]; intros k k' σ σ' lines rest how; [done|].
  cbn [start_game_loop].
  destruct (play_game (draws k) σ lines) as [[[r rs1] σ1] rest1] eqn:Hrun.
  apply play_loop_summary in Hrun as (n & _ & Hp & Hd & _).
  assert (Hname : player_name (player σ1) = player_name (player σ))
    by (by rewrite Hp).
  assert (Hothers : ∀ name, name ≠ player_name (player σ) →
            load_players (disk σ1) !! name = load_players (disk σ) !! name).
  { intros name Hne. rewrite Hd. destruct (is_return r); [|done].
    unfold update_player. simpl. rewrite Hname. by rewrite lookup_insert_ne. }
  destruct r as [[] w|e].
  - destruct rest1 as [|again rest1]; [by intros [= <- <- <- <-]|].
    case_bool_decide; [|by intros [= <- <- <- <-]].
    intros [Hn' Ho']%IH. rewrite Hname in Hn', Ho'. split; [done|].
    intros name Hne. rewrite Ho' by done. by apply Hothers.
  - destruct w; by intros [= <- <- <- <-].
  - by intros [= <- <- <- <-].
Qed.

Lemma create_player_ui_keeps (f : file) (lines : list str) :
  ∀ out f' rest,
    create_player_ui f lines = (out, f', rest) →
    (∀ name e, load_players f !! name = Some e →
               load_players f' !! name = Some e)
    ∧ (∀ p, out = inr p → load_players f !! player_name p = None).
Proof.
  induction lines as [|name lines IH]; intros out f' rest; simpl.
  - intros [= <- <- <-]. by split.
  - case_bool_decide; [apply IH|].
    destruct (player_exists name f) eqn:Hex; [apply IH|].
    intros [= <- <- <-]. simpl.
    assert (Hfree : load_players f !! name = None).
    { unfold player_exists in Hex. apply bool_decide_eq_false_1 in Hex.
      destruct (load_players f !! name) eqn:Hl; [|done].
      exfalso. apply Hex. by eexists. }
    split; [|by intros p [= <-]].
    intros other e Hother. rewrite lookup_insert_ne; [done|]. congruence.
Qed.

(** X14: what a session leaves in the file.  From a player whose statistics
    are in the file, however the loop of [start_game_ui] ends, the file holds
    under the player's name the rounds the player has won and a score that
    is at most the player's; when the loop returns the score is the
    player's too.  So the rounds won are never lost, and the points in
    memory can only be ahead of the file when an exception ends the loop. *)
Theorem session_keeps_rounds (fuel : nat) (draws : nat → nat) :
  ∀ (k k' : nat) (σ σ' : world) (lines rest : list str) (how : ended),
    flushed σ →
    start_game_loop fuel draws k σ lines = Some (how, σ', rest, k') →
    ∃ s,
      load_players (disk σ') !! player_name (player σ')
      = Some (stats s (rounds (player σ')))
      ∧ s ≤ score (player σ')
      ∧ (how = Returned → s = score (player σ')).
Proof.
  induction fuel as [|fuel IH]; intros k k' σ σ' lines rest how Hfl; [done|].
  cbn [start_game_loop].
  destruct (play_game (draws k) σ lines) as [[[r rs1] σ1] rest1] eqn:Hrun.
  apply play_loop_summary in Hrun as (n & _ & Hp & Hd & _).
  assert (Hdone : is_return r = true → flushed σ1).
  { intros Hr. rewrite Hr in Hd. unfold flushed. rewrite Hd.
    unfold update_player. simpl. apply lookup_insert_eq. }
  assert (Hflushed : ∀ τ, flushed τ →
            ∃ s, load_players (disk τ) !! player_name (player τ)
                 = Some (stats s (rounds (player τ)))
                 ∧ s ≤ score (player τ)
                 ∧ (how = Returned → s = score (player τ))).
  { intros τ Hτ. exists (score (player τ)). split_and!; [done|lia|done]. }
  destruct r as [[] w|e].
  - destruct rest1 as [|again rest1].
    { intros [= <- <- <- <-]. by apply Hflushed, Hdone. }
    case_bool_decide; [|intros [= <- <- <- <-]; by apply Hflushed, Hdone].
    apply IH. by apply Hdone.
  - destruct w; intros [= <- <- <- <-]; by apply Hflushed, Hdone.
  - intros [= <- <- <- <-]. simpl in Hd, Hp. exists (score (player σ)).
    rewrite Hd, Hp. simpl. rewrite Z.add_0_r. split_and!; [done|lia|done].
Qed.

(** X15: [start_game_ui] touches no entry but the one it makes: every entry
    the file had before is in the file afterwards, unchanged, however the
    session ends. *)
Theorem start_game_ui_frame (fuel : nat) (draws : nat → nat) (k k' : nat)
    (f f' : file) (lines rest : list str) (how : ended) :
  start_game_ui fuel draws k f lines = Some (how, f', rest, k') →
  ∀ name e, load_players f !! name = Some e →
            load_players f' !! name = Some e.
Proof.
  unfold start_game_ui.
  destruct (create_player_ui f lines) as [[out f1] rest1] eqn:Hcreate.
  apply create_player_ui_keeps in Hcreate as [Hkeep Hfree].
  destruct out as [e|p]; [by intros [= <- <- <- <-]|].
  destruct (start_game_loop fuel draws k (mkWorld p f1) rest1)
    as [[[[how1 σ1] rest2] k1]|] eqn:Hloop; [|done].
  intros [= <- <- <- <-]. intros name e Hname.
  apply start_game_loop_others in Hloop as [_ Hothers]. simpl in Hothers.
  rewrite Hothers; [by apply Hkeep|].
  intros ->. by rewrite (Hfree p eq_refl) in Hname.
Qed.

Lemma start_game_ui_fuel (fuel : nat) (draws : nat → nat) (k : nat) (f : file)
    (lines : list str) out :
  start_game_ui fuel draws k f lines = Some out →
  start_game_ui (S fuel) draws k f lines = Some out.
Proof.
  unfold start_game_ui.
  destruct (create_player_ui f lines) as [[[e|p] f1] rest1]; [done|].
  destruct (start_game_loop fuel draws k (mkWorld p f1) rest1)
    as [[[[how σ1] rest2] k1]|] eqn:Hloop; [|done].
  by rewrite (start_game_loop_fuel _ _ _ _ _ _ Hloop).
Qed.

Lemma main_unfold (fuel : nat) (draws : nat → nat) (k : nat) (f : file)
    (lines : list str) :
  main (S fuel) draws k f lines =
  match lines with
  | [] => Some (Raised (Base EOFError), f, [])
  | option :: rest =>
      if bool_decide (option = lit "1") then
        match start_game_ui fuel draws k f rest with
        | Some (Returned, f', rest', k') => main fuel draws k' f' rest'
        | Some (Raised e, f', rest', _) => Some (Raised e, f', rest')
        | None => None
        end
      else if bool_decide (option = lit "2") then Some (Returned, f, rest)
      else if bool_decide (option = lit "3") then
        match show_highscores_ui f with
        | None => main fuel draws k f rest
        | Some e => Some (Raised e, f, rest)
        end
      else if bool_decide (option = lit "c") then
        main fuel draws k (clear_player f) rest
      else main fuel draws k f rest
  end.
Proof. reflexivity. Qed.

Lemma main_fuel (fuel : nat) (draws : nat → nat) :
  ∀ (k : nat) (f : file) (lines : list str) out,
    main fuel draws k f lines = Some out →
    main (S fuel) draws k f lines = Some out.
Proof.
  induction fuel as [|fuel IH]; intros k f lines out; [done|].
  rewrite (main_unfold (S fuel)), (main_unfold fuel).
  destruct lines as [|choice rest]; [done|].
  repeat case_bool_decide; try done; try (by apply IH).
  - destruct (start_game_ui fuel draws k f rest)
      as [[[[[|e] f1] rest1] k1]|] eqn:Hui; try done.
    + rewrite (start_game_ui_fuel _ _ _ _ _ _ Hui). by apply IH.
    + by rewrite (start_game_ui_fuel _ _ _ _ _ _ Hui).
  - destruct (show_highscores_ui f); [done|]. by apply IH.
Qed.

Lemma main_total (fuel : nat) (draws : nat → nat) :
  ∀ (k : nat) (f : file) (lines : list str),
    (length lines < fuel)%nat →
    ∃ out, main fuel draws k f lines = Some out.
Proof.
  induction fuel as [|fuel IH]; intros k f lines Hfuel; [lia|].
  cbn [main]. destruct lines as [|choice rest]; [by eexists|].
  simpl in Hfuel. repeat case_bool_decide; try (apply IH; lia).
  - destruct (start_game_ui_safe fuel draws k f rest)
      as (how & f1 & rest1 & k1 & -> & _ & Hlen & _); [lia|].
    destruct how; [apply IH; lia | by eexists].
  - by eexists.
  - destruct (show_highscores_ui f); [by eexists | apply IH; lia].
Qed.

(** X16: a menu choice other than ["1"], ["2"], ["3"] and ["c"] does
    nothing: the program runs on as if the line had not been typed, with the
    file as it was.  The test is on the line as typed, so the capital ["C"]
    does not clear the list and [" 2"] does not quit. *)
Theorem main_ignores_other_choices (fuel : nat) (draws : nat → nat) (k : nat)
    (f : file) (choice : str) (rest : list str) :
  choice ≠ lit "1" → choice ≠ lit "2" → choice ≠ lit "3" →
  choice ≠ lit "c" →
  (length (choice :: rest) < fuel)%nat →
  main fuel draws k f (choice :: rest) = main fuel draws k f rest.
Proof.
  intros H1 H2 H3 Hc Hfuel. destruct fuel as [|fuel]; [simpl in Hfuel; lia|].
  simpl in Hfuel.
  destruct (main_total fuel draws k f rest) as [out Hout]; [lia|].
  rewrite (main_fuel _ _ _ _ _ _ Hout), <- Hout.
  cbn [main]. by rewrite !bool_decide_eq_false_2.
Qed.

(** X17: the program ends in one of two ways only.  Started on a file whose
    entries all have their two fields (a missing or cleared file, or one this
    program wrote), with any input and any draws, [main] returns through
    ["2"] or raises [EOFError] at the end of the input: it raises no
    [KeyError] in the table, no [IndexError] in a round and no [TypeError]
    after one, and it leaves a file of the same kind. *)
Theorem main_safe (fuel : nat) (draws : nat → nat) :
  ∀ (k : nat) (f : file) (lines : list str),
    store_ok f →
    (length lines < fuel)%nat →
    ∃ how f' rest,
      main fuel draws k f lines = Some (how, f', rest)
      ∧ (how = Returned ∨ how = Raised (Base EOFError))
      ∧ store_ok f'.
Proof.
  induction fuel as [|fuel IH]; intros k f lines Hok Hfuel; [lia|].
  cbn [main]. destruct lines as [|choice rest].
  { eexists _, _, _. split; [done|]. auto. }
  simpl in Hfuel. case_bool_decide.
  { destruct (start_game_ui_safe fuel draws k f rest)
      as (how & f1 & rest1 & k1 & -> & [-> | ->] & Hlen & Hst); [lia| |].
    - apply IH; [auto|lia].
    - eexists _, _, _. split; [done|]. auto. }
  case_bool_decide.
  { eexists _, _, _. split; [done|]. auto. }
  case_bool_decide.
  { rewrite show_highscores_ui_ok by done. apply IH; [done|lia]. }
  case_bool_decide.
  { apply IH; [apply store_ok_clear|lia]. }
  apply IH; [done|lia].
Qed.

End Session.

(** ** The further properties on concrete inputs *)

(** X1 when Bob is made next to Alice. *)
Lemma create_player_registers_witness :
  alice ≠ bob
  ∧ player_exists bob (create_player bob (disk fresh_world)).2 = true
  ∧ player_exists alice (create_player bob (disk fresh_world)).2
    = player_exists alice (disk fresh_world)
  ∧ load_players (create_player bob (disk fresh_world)).2 !! alice
    = load_players (disk fresh_world) !! alice.
Proof.
  assert (Hne : alice ≠ bob) by done.
  destruct (create_player_registers bob (disk fresh_world)) as [Hbob Hothers].
  split; [exact Hne|]. split; [exact Hbob|]. by apply Hothers.
Defined.

(** X3 on the file that holds Alice. *)
Lemma store_ok_kept_witness :
  store_ok (disk fresh_world)
  ∧ store_ok (create_player bob (disk fresh_world)).2
  ∧ store_ok (update_player (mkPlayer alice 10 0) (disk fresh_world)).
Proof.
  assert (Hok : store_ok (disk fresh_world)).
  { apply (store_ok_create alice None), map_Forall_empty. }
  destruct store_ok_kept as (_ & _ & Hkept).
  destruct (Hkept (disk fresh_world) Hok) as [Hc Hu].
  split; [exact Hok|]. split; [apply Hc | apply Hu].
Defined.


(** X6 on the round Alice wins with c, x, a, t: four lines read, three of
    them right, 30 points. *)
Lemma play_game_accounting_witness :
  play_game (U := ascii_unicode) 21 fresh_world c_x_a_t
  = (Return true None, mkRound c_a_t [lit "x"] 1, won_world, [])
  ∧ correct_guesses (U := ascii_unicode) (get_random_word 21) c_x_a_t = 3%nat
  ∧ ∃ read,
      c_x_a_t = read ++ []
      ∧ player_name (player won_world) = player_name (player fresh_world)
      ∧ score (player won_world)
        = score (player fresh_world)
          + 10 * Z.of_nat (correct_guesses (U := ascii_unicode)
                             (get_random_word 21) read)
      ∧ rounds (player won_world) = rounds (player fresh_world) + 1.
Proof.
  assert (Hrun : play_game (U := ascii_unicode) 21 fresh_world c_x_a_t
                 = (Return true None, mkRound c_a_t [lit "x"] 1, won_world,
                    []))
    by reflexivity.
  split; [exact Hrun|]. split; [reflexivity|].
  exact (play_game_accounting (U := ascii_unicode) _ _ _ _ _ _ _ Hrun).
Defined.

(** X7 on the same round: Alice's entry is written, Bob's is not touched. *)
Lemma play_game_file_witness :
  bob ≠ player_name (player fresh_world)
  ∧ disk won_world = update_player (player won_world) (disk fresh_world)
  ∧ load_players (disk won_world) !! bob
    = load_players (disk fresh_world) !! bob.
Proof.
  assert (Hrun : play_game (U := ascii_unicode) 21 fresh_world c_a_t
                 = (Return true None, mkRound c_a_t [] 0, won_world, []))
    by reflexivity.
  assert (Hne : bob ≠ player_name (player fresh_world)) by done.
  destruct (play_game_file (U := ascii_unicode) _ _ _ _ _ _ _ Hrun)
    as [Hdisk Hothers].
  split; [exact Hne|]. split; [exact Hdisk | by apply Hothers].
Defined.

(** X8 on the round won with c, a, t and on the round lost on ["dog"]. *)
Lemma play_game_final_board_witness :
  (guessed_letters (mkRound c_a_t [] 0) = (λ l, [l]) <$> get_random_word 21
   ∧ 0 ≤ attempt (mkRound c_a_t [] 0) < 7
   ∧ Z.of_nat (length (wrong_letters (mkRound c_a_t [] 0)))
     = attempt (mkRound c_a_t [] 0))
  ∧ (attempt dog_lost = 7
     ∧ length (wrong_letters dog_lost) = 7%nat
     ∧ NoDup (wrong_letters dog_lost)
     ∧ underscore ∈ guessed_letters dog_lost).
Proof.
  assert (Hwon : play_game (U := ascii_unicode) 21 fresh_world c_a_t
                 = (Return true None, mkRound c_a_t [] 0, won_world, []))
    by reflexivity.
  assert (Hlost : play_game (U := ascii_unicode) 20 fresh_world seven_wrong
                  = (Return false (Some (get_random_word 20)), dog_lost,
                     flush fresh_world, []))
    by reflexivity.
  split.
  - exact (proj1 (play_game_final_board (U := ascii_unicode)
                    _ _ _ _ _ _ _ Hwon) eq_refl).
  - exact (proj2 (play_game_final_board (U := ascii_unicode)
                    _ _ _ _ _ _ _ Hlost) eq_refl).
Defined.

(** X9 on the locals after the wrong guess ["x"] in a round on ["dog"]. *)
Lemma reachable_invariants_witness :
  reachable (U := ascii_unicode) dog dog_x
  ∧ attempt dog_x = Z.of_nat (length (wrong_letters dog_x))
  ∧ attempt dog_x ≤ 7
  ∧ NoDup (wrong_letters dog_x)
  ∧ (∀ g, g ∈ wrong_letters dog_x →
          str_in g dog = false ∧ g ∉ guessed_letters dog_x)
  ∧ length (guessed_letters dog_x) = length dog
  ∧ ¬ (guessed_word dog (guessed_letters dog_x) = true ∧ attempt dog_x = 7).
Proof.
  assert (Hreach : reachable (U := ascii_unicode) dog dog_x).
  { apply (reach_step (U := ascii_unicode) dog (init_round dog) dog_x
             fresh_world fresh_world (lit "x"));
      [apply reach_init | reflexivity | reflexivity]. }
  split; [exact Hreach|].
  exact (reachable_invariants (U := ascii_unicode) dog dog_x Hreach).
Defined.

(** X10: the capital ["C"] at the start of a round on ["cat"]. *)
Lemma capital_guess_is_wrong_witness :
  round_ok (U := ascii_unicode) (get_random_word 21)
    (init_round (get_random_word 21))
  ∧ uppercase 67%N = true
  ∧ loop_body (U := ascii_unicode) (get_random_word 21)
      (init_round (get_random_word 21)) fresh_world [67%N]
    = Continue (mkRound (guessed_letters (init_round (get_random_word 21)))
                        (wrong_letters (init_round (get_random_word 21))
                         ++ [[67%N]])
                        (attempt (init_round (get_random_word 21)) + 1))
               fresh_world.
Proof.
  split; [apply round_ok_init|]. split; [reflexivity|].
  apply (capital_guess_is_wrong (U := ascii_unicode));
    [apply round_ok_init | reflexivity | reflexivity |].
  by intros ?%elem_of_nil.
Defined.

(** X11: the line ["  c "] at the start of a round on ["cat"]. *)
Lemma padded_guess_witness :
  Forall (λ c, isspace (Unicode := ascii_unicode) c = true) (lit "  ")
  ∧ Forall (λ c, isspace (Unicode := ascii_unicode) c = true) (lit " ")
  ∧ strip (U := ascii_unicode) (lit "  " ++ lit "c" ++ lit " ")
    = strip (U := ascii_unicode) (lit "c")
  ∧ play_loop (U := ascii_unicode) cat (init_round cat) fresh_world
      ((lit "  " ++ lit "c" ++ lit " ") :: [lit "a"; lit "t"])
    = play_loop (U := ascii_unicode) cat (init_round cat) fresh_world
        (lit "c" :: [lit "a"; lit "t"]).
Proof.
  assert (Hpre : Forall (λ c, isspace (Unicode := ascii_unicode) c = true)
                        (lit "  "))
    by (repeat constructor).
  assert (Hpost : Forall (λ c, isspace (Unicode := ascii_unicode) c = true)
                         (lit " "))
    by (repeat constructor).
  split; [exact Hpre|]. split; [exact Hpost|].
  by apply (padded_guess (U := ascii_unicode)).
Defined.

(** X12 when the lines are a name too long, Alice, who is taken, and Bob;
    and when Alice, taken, is the only line. *)
Lemma create_player_ui_fresh_witness :
  (create_player_ui (disk fresh_world) [long_name; alice; bob; lit "c"]
   = (inr (mkPlayer bob 0 0), (create_player bob (disk fresh_world)).2,
      [lit "c"])
   ∧ (length (player_name (mkPlayer bob 0 0)) ≤ 15)%nat
   ∧ player_exists (player_name (mkPlayer bob 0 0)) (disk fresh_world) = false
   ∧ load_players (create_player bob (disk fresh_world)).2 !! alice
     = Some (stats 0 0))
  ∧ (create_player_ui (disk fresh_world) [alice]
     = (inl EOFError, disk fresh_world, [])
     ∧ Forall (λ name, (15 < length name)%nat
                       ∨ player_exists name (disk fresh_world) = true)
              [alice]).
Proof.
  assert (Hmade :
    create_player_ui (disk fresh_world) [long_name; alice; bob; lit "c"]
    = (inr (mkPlayer bob 0 0), (create_player bob (disk fresh_world)).2,
       [lit "c"])) by reflexivity.
  assert (Hnone : create_player_ui (disk fresh_world) [alice]
                  = (inl EOFError, disk fresh_world, [])) by reflexivity.
  split.
  - destruct (proj1 (create_player_ui_fresh _ _) _ _ _ Hmade)
      as (Hlen & Hfree & _ & _ & _ & Hkeep).
    split; [exact Hmade|]. split; [exact Hlen|]. split; [exact Hfree|].
    by apply Hkeep.
  - destruct (proj2 (create_player_ui_fresh _ _) _ _ _ Hnone)
      as (_ & _ & _ & Hall).
    split; [exact Hnone | exact Hall].
Defined.

(** X13 with the empty line as the name, after a name too long and a name
    taken. *)
Lemma create_player_ui_first_free_witness :
  Forall (λ line, (15 < length line)%nat
                  ∨ player_exists line (disk fresh_world) = true)
         [long_name; alice]
  ∧ (length (lit "") ≤ 15)%nat
  ∧ player_exists (lit "") (disk fresh_world) = false
  ∧ create_player_ui (disk fresh_world)
      ([long_name; alice] ++ lit "" :: [bob])
    = (inr (mkPlayer (lit "") 0 0),
       Some (<[lit "" := stats 0 0]> (load_players (disk fresh_world))),
       [bob]).
Proof.
  assert (Hsk : Forall (λ line, (15 < length line)%nat
                                ∨ player_exists line (disk fresh_world) = true)
                       [long_name; alice]).
  { constructor; [left; vm_compute; lia|].
    constructor; [by right | constructor]. }
  assert (Hlen : (length (lit "") ≤ 15)%nat) by (simpl; lia).
  split; [exact Hsk|]. split; [exact Hlen|]. split; [reflexivity|].
  by apply create_player_ui_first_free.
Defined.

(** X14 on two sessions of Alice: one round won and no other asked for; and
    the input ending after the guess ["c"]. *)
Lemma session_keeps_rounds_witness :
  flushed fresh_world
  ∧ (start_game_loop (U := ascii_unicode) (C := ascii_casing) 5 always_cat 0
       fresh_world (c_a_t ++ [lit "n"])
     = Some (Returned, won_world, [], 1%nat)
     ∧ ∃ s, load_players (disk won_world) !! player_name (player won_world)
            = Some (stats s (rounds (player won_world)))
            ∧ s ≤ score (player won_world)
            ∧ (Returned = Returned → s = score (player won_world)))
  ∧ (start_game_loop (U := ascii_unicode) (C := ascii_casing) 5 always_cat 0
       fresh_world [lit "c"]
     = Some (Raised (Base EOFError), add_score 10 fresh_world, [], 1%nat)
     ∧ ∃ s, load_players (disk (add_score 10 fresh_world))
              !! player_name (player (add_score 10 fresh_world))
            = Some (stats s (rounds (player (add_score 10 fresh_world))))
            ∧ s ≤ score (player (add_score 10 fresh_world))
            ∧ (Raised (Base EOFError) = Returned →
               s = score (player (add_score 10 fresh_world)))).
Proof.
  assert (Hfl : flushed fresh_world) by reflexivity.
  assert (Hwon :
    start_game_loop (U := ascii_unicode) (C := ascii_casing) 5 always_cat 0
      fresh_world (c_a_t ++ [lit "n"])
    = Some (Returned, won_world, [], 1%nat)) by reflexivity.
  assert (Hcut :
    start_game_loop (U := ascii_unicode) (C := ascii_casing) 5 always_cat 0
      fresh_world [lit "c"]
    = Some (Raised (Base EOFError), add_score 10 fresh_world, [], 1%nat))
    by reflexivity.
  split; [exact Hfl|]. split.
  - split; [exact Hwon|].
    exact (session_keeps_rounds (U := ascii_unicode) (C := ascii_casing)
             _ _ _ _ _ _ _ _ _ Hfl Hwon).
  - split; [exact Hcut|].
    exact (session_keeps_rounds (U := ascii_unicode) (C := ascii_casing)
             _ _ _ _ _ _ _ _ _ Hfl Hcut).
Defined.

(** X15 on the session in which Bob joins Alice and wins a round. *)
Lemma start_game_ui_frame_witness :
  start_game_ui (U := ascii_unicode) (C := ascii_casing) 5 always_cat 0
    (disk fresh_world) (bob :: c_a_t ++ [lit "n"])
  = Some (Returned, alice_bob_file, [], 1%nat)
  ∧ load_players (disk fresh_world) !! alice = Some (stats 0 0)
  ∧ load_players alice_bob_file !! alice = Some (stats 0 0).
Proof.
  assert (Hrun :
    start_game_ui (U := ascii_unicode) (C := ascii_casing) 5 always_cat 0
      (disk fresh_world) (bob :: c_a_t ++ [lit "n"])
    = Some (Returned, alice_bob_file, [], 1%nat)) by reflexivity.
  assert (Halice : load_players (disk fresh_world) !! alice
                   = Some (stats 0 0)) by reflexivity.
  split; [exact Hrun|]. split; [exact Halice|].
  exact (start_game_ui_frame (U := ascii_unicode) (C := ascii_casing)
           _ _ _ _ _ _ _ _ _ Hrun alice (stats 0 0) Halice).
Defined.

(** X16 on the capital ["C"]. *)
Lemma main_ignores_other_choices_witness :
  lit "C" ≠ lit "1" ∧ lit "C" ≠ lit "2" ∧ lit "C" ≠ lit "3"
  ∧ lit "C" ≠ lit "c"
  ∧ (length [lit "C"; lit "2"] < 3)%nat
  ∧ main (U := ascii_unicode) (C := ascii_casing) 3 always_cat 0
      (disk fresh_world) [lit "C"; lit "2"]
    = main (U := ascii_unicode) (C := ascii_casing) 3 always_cat 0
        (disk fresh_world) [lit "2"].
Proof.
  assert (Hfuel : (length [lit "C"; lit "2"] < 3)%nat) by (simpl; lia).
  split; [done|]. split; [done|]. split; [done|]. split; [done|].
  split; [exact Hfuel|].
  by apply (main_ignores_other_choices (U := ascii_unicode)
              (C := ascii_casing)).
Defined.

(** X17 on a whole run from no file: a session of Bob, the table, the
    clearing of the list, the table again, and the way out. *)
Lemma main_safe_witness :
  store_ok None
  ∧ (length ([lit "1"; bob] ++ c_a_t
             ++ [lit "n"; lit "3"; lit "c"; lit "3"; lit "2"]) < 12)%nat
  ∧ ∃ how f' rest,
      main (U := ascii_unicode) (C := ascii_casing) 12 always_cat 0 None
        ([lit "1"; bob] ++ c_a_t
         ++ [lit "n"; lit "3"; lit "c"; lit "3"; lit "2"])
      = Some (how, f', rest)
      ∧ (how = Returned ∨ how = Raised (Base EOFError))
      ∧ store_ok f'.
Proof.
  assert (Hok : store_ok None) by apply map_Forall_empty.
  assert (Hfuel : (length ([lit "1"; bob] ++ c_a_t
             ++ [lit "n"; lit "3"; lit "c"; lit "3"; lit "2"]) < 12)%nat)
    by (vm_compute; lia).
  split; [exact Hok|]. split; [exact Hfuel|].
  exact (main_safe (U := ascii_unicode) (C := ascii_casing)
           12 always_cat 0 None _ Hok Hfuel).
Defined.
